(** * landevlist: the discovery pipeline of [landevlist.py]

    A shallow embedding of [landevlist.py] (the neighbour-table parser, the
    reachability probe, the pool stage that filters the candidates, and
    [main]) together with the properties of the design document that it
    satisfies, and the ones it does not.

    Conventions of the embedding.
    - A Python [str] is a list of Unicode code points ([N]).
    - A Python [dict] is an association list in insertion order whose keys
      are pairwise distinct; [d[k] = v], [d.pop(k)], [d.keys()] and
      [d.values()] are written out on that representation.
    - Everything the program does to the outside world (launching [ip] and
      [ping], starting the worker pool, printing) is recorded in a trace;
      what the outside world answers is read from an environment record.
    - Python exceptions are the left summand of the result of a
      computation. *)

From Stdlib Require Import String Ascii List NArith ZArith Bool Arith Lia Permutation.
Import ListNotations.

Set Implicit Arguments.

(** ** Text *)

Module Text.

Local Open Scope N_scope.

Definition char := N.
Definition str := list char.

(** An ASCII literal of the source, as a [str]. *)
Fixpoint lit (s : string) : str :=
  match s with
  | EmptyString => []
  | String a s' => N_of_ascii a :: lit s'
  end.

Fixpoint str_eqb (a b : str) : bool :=
  match a, b with
  | [], [] => true
  | x :: a', y :: b' => N.eqb x y && str_eqb a' b'
  | _, _ => false
  end.

Definition between (lo hi c : char) : bool := N.leb lo c && N.leb c hi.

(** [[0-9A-Fa-f]] *)
Definition is_hex (c : char) : bool :=
  between 48 57 c || between 65 70 c || between 97 102 c.

(** [[:-]] *)
Definition is_sep (c : char) : bool := N.eqb c 58 || N.eqb c 45.

(** The characters [str.split()] treats as white space. *)
Definition isspace (c : char) : bool :=
  between 9 13 c || between 28 32 c || N.eqb c 133 || N.eqb c 160
  || N.eqb c 5760 || between 8192 8202 c || N.eqb c 8232 || N.eqb c 8233
  || N.eqb c 8239 || N.eqb c 8287 || N.eqb c 12288.

(** [s.split(sep)] for a one-character separator: the pieces between the
    separators, empty ones included; never the empty list. *)
Fixpoint split_on (sep : char) (s : str) : list str :=
  match s with
  | [] => [[]]
  | c :: s' =>
      if N.eqb c sep then [] :: split_on sep s'
      else match split_on sep s' with
           | piece :: rest => (c :: piece) :: rest
           | [] => [[c]]
           end
  end.

(** [s.split()]: the maximal runs of characters that are not white space.
    [acc] is the run being read, last character first. *)
Fixpoint split_from (acc : str) (s : str) : list str :=
  match s with
  | [] => match acc with [] => [] | _ => [rev acc] end
  | c :: s' =>
      if isspace c
      then match acc with
           | [] => split_from [] s'
           | _ => rev acc :: split_from [] s'
           end
      else split_from (c :: acc) s'
  end.

Definition split (s : str) : list str := split_from [] s.

End Text.

Export Text.

(** ** The link-layer address pattern *)

Module MacPattern.

(** A matcher consumes a prefix of its input and returns the rest. *)
Definition matcher := str -> option str.

(** [[0-9A-Fa-f]{2}] *)
Definition hex2 : matcher := fun s =>
  match s with
  | a :: b :: r => if is_hex a && is_hex b then Some r else None
  | _ => None
  end.

(** [[0-9A-Fa-f]{2}[:-]] *)
Definition group : matcher := fun s =>
  match hex2 s with
  | Some (c :: r) => if is_sep c then Some r else None
  | _ => None
  end.

Fixpoint times (n : nat) (m : matcher) : matcher := fun s =>
  match n with
  | O => Some s
  | S n' => match m s with
            | Some r => times n' m r
            | None => None
            end
  end.

(** [([0-9A-Fa-f]{2}[:-]){5}([0-9A-Fa-f]{2})] anchored at the start of [s]. *)
Definition mac_pattern : matcher := fun s =>
  match times 5 group s with
  | Some r => hex2 r
  | None => None
  end.

(** Every match of the pattern has this length. *)
Definition mac_len : nat := 17.

(** [mac_pattern.search(line)] followed by [.group(0)]: the text of the
    leftmost match, [None] when there is none. *)
Fixpoint search (line : str) : option str :=
  match mac_pattern line with
  | Some _ => Some (firstn mac_len line)
  | None => match line with
            | [] => None
            | _ :: line' => search line'
            end
  end.

(** The shape the pattern describes, stated on a whole string: seventeen
    characters, a separator at positions 2, 5, 8, 11 and 14 and a
    hexadecimal digit at every other one. *)
Fixpoint shape_from (i : nat) (m : str) : bool :=
  match m with
  | [] => true
  | c :: m' =>
      (if Nat.eqb (Nat.modulo i 3) 2 then is_sep c else is_hex c)
      && shape_from (S i) m'
  end.

Definition mac_shape (m : str) : bool :=
  Nat.eqb (length m) mac_len && shape_from 0 m.

(** [line] contains a substring of that shape. *)
Definition contains_mac (line : str) : Prop :=
  exists pre m post, line = pre ++ m ++ post /\ mac_shape m = true.

End MacPattern.

Export MacPattern.

(** ** Dictionaries *)

Module Dict.

(** A [dict] from [str] to [str], in insertion order. *)
Definition dict := list (str * str).

Definition keys (d : dict) : list str := map fst d.
Definition values (d : dict) : list str := map snd d.

(** The keys of a dictionary are pairwise distinct. *)
Definition wf (d : dict) : Prop := NoDup (keys d).

(** [d[k]] *)
Fixpoint lookup (k : str) (d : dict) : option str :=
  match d with
  | [] => None
  | (k', v) :: d' => if str_eqb k k' then Some v else lookup k d'
  end.

(** [d[k] = v]: an existing key keeps its place and takes the new value, a
    new key goes to the end. *)
Fixpoint set (k v : str) (d : dict) : dict :=
  match d with
  | [] => [(k, v)]
  | (k', v') :: d' =>
      if str_eqb k k' then (k', v) :: d' else (k', v') :: set k v d'
  end.

(** [d.pop(k)], without the value: [None] stands for [KeyError]. *)
Fixpoint pop (k : str) (d : dict) : option dict :=
  match d with
  | [] => None
  | (k', v') :: d' =>
      if str_eqb k k' then Some d'
      else match pop k d' with
           | Some r => Some ((k', v') :: r)
           | None => None
           end
  end.

(** [d == {}] *)
Definition is_empty (d : dict) : bool :=
  match d with [] => true | _ => false end.

End Dict.

Export Dict.

(** ** Effects: exceptions, the trace, the environment *)

Module Effects.

(** The exceptions the program can meet. *)
Inductive exn : Type :=
| IndexError
| KeyError (k : str)
| OSError
| ValueError
| SystemExit (code : Z).

(** What the program does to the outside world. *)
Inductive event : Type :=
| Run (argv : list str)        (* subprocess.run(argv, ...) *)
| PoolStart (processes : nat)  (* multiprocessing.Pool(processes = n) *)
| Print (s : str).             (* print(s) *)

Definition trace := list event.

(** A computation: its result, or the exception that ended it, and what it
    did in the order it did it. *)
Definition M (A : Type) : Type := (exn + A) * trace.

Definition ret {A} (a : A) : M A := (inr a, []).

Definition raise {A} (e : exn) : M A := (inl e, []).

Definition tell (ev : event) : M unit := (inr tt, [ev]).

Definition bind {A B} (m : M A) (k : A -> M B) : M B :=
  match m with
  | (inl e, t) => (inl e, t)
  | (inr a, t) => let (r, t') := k a in (r, t ++ t')
  end.

Definition result_of {A} (m : M A) : exn + A := fst m.
Definition trace_of {A} (m : M A) : trace := snd m.

(** What [subprocess.run] comes back with: a completed process, with its
    [returncode] and its [stdout] attribute (the text of the standard
    output as [text = True] hands it over), or the exception raised when
    the program could not be launched. *)
Inductive run_outcome : Type :=
| Completed (returncode : Z) (stdout : str)
| Raised (e : exn).

(** The outside world for one invocation of the program. *)
Record Env : Type := {
  sys_argv : list str;
  (** [shutil.which] *)
  which : str -> option str;
  (** the outcome of [ip -4 neigh show] *)
  ip_neigh : run_outcome;
  (** the outcome of the [ping] launched by the [i]-th task of the pool,
      for the address it is given *)
  ping : nat -> str -> run_outcome
}.

(** [l[i]] *)
Definition index {A} (l : list A) (i : nat) : M A :=
  match nth_error l i with
  | Some a => ret a
  | None => raise IndexError
  end.

(** [d[k]] as an expression *)
Definition getitem (k : str) (d : dict) : M str :=
  match lookup k d with
  | Some v => ret v
  | None => raise (KeyError k)
  end.

(** [d.pop(k)] as a statement *)
Definition popitem (k : str) (d : dict) : M dict :=
  match pop k d with
  | Some d' => ret d'
  | None => raise (KeyError k)
  end.

Definition print (s : str) : M unit := tell (Print s).

Definition sys_exit {A} (code : Z) : M A := raise (SystemExit code).

(** [subprocess.run(argv, ...)], answered by [o]. *)
Definition subprocess_run (argv : list str) (o : run_outcome) : M (Z * str) :=
  (match o with
   | Completed rc out => inr (rc, out)
   | Raised e => inl e
   end, [Run argv]).

(** The exit status of the interpreter for a run of the main module that
    ended with [r]. *)
Definition exit_status {A} (r : exn + A) : Z :=
  match r with
  | inr _ => 0
  | inl (SystemExit code) => code
  | inl _ => 1
  end.

End Effects.

Export Effects.

Declare Scope monad_scope.
Delimit Scope monad_scope with monad.
Notation "x <- m ;; k" := (bind m (fun x => k))
  (at level 61, m at next level, right associativity) : monad_scope.
Notation "m ;; k" := (bind m (fun _ => k))
  (at level 61, right associativity) : monad_scope.
Open Scope monad_scope.

(** ** The program *)

Definition MULTIPROC_PCOUNT : nat := 5.
Definition NPLUS : nat := 43.

Definition newline : char := 10%N.
Definition space : char := 32%N.
Definition plus_sign : char := 43%N.

Definition show_help : M unit :=
  print (lit "Usage: landevlist") ;;
  print (lit "Lists devices connected to the local network (LAN) with their MAC and IPv4 addresses." ++ [newline]) ;;
  print (lit "Output is formatted in a tabular structure for readability.") ;;
  print (lit "Only devices with an active connection will be displayed." ++ [newline]) ;;
  print (lit "Copyright (c) 2025-Present Arijit Kumar Das <arijitkdgit.official@gmail.com> under MIT License." ++ [newline]).

Definition show_missing_dependency : M unit :=
  print (lit "landevlist: A required program was not found on your system.") ;;
  print (lit "Required programs are: ip, ping") ;;
  print (lit "Make sure these packages are installed:") ;;
  print (lit "* iputils-ping (on Debian/Ubuntu), or") ;;
  print (lit "  iputils (on Arch/RHEL/Fedora)") ;;
  print (lit "* iproute2 (on Debian/Ubuntu/Arch), or") ;;
  print (lit "  iproute (on RHEL/Fedora)") ;;
  print (lit "Please note that package name may vary based on your distro repository upstream.").

(** The truth value of what [shutil.which] returns: [None] and the empty
    string are false. *)
Definition truthy (p : option str) : bool :=
  match p with
  | None => false
  | Some [] => false
  | Some (_ :: _) => true
  end.

Fixpoint prereq_loop (env : Env) (reqs : list str) : bool :=
  match reqs with
  | [] => true
  | req :: reqs' =>
      if negb (truthy (which env req)) then false else prereq_loop env reqs'
  end.

Definition prereq_installed (env : Env) : bool :=
  prereq_loop env [lit "ip"; lit "ping"].

Definition ping_argv (ip : str) : list str :=
  [lit "ping"; lit "-c"; lit "1"; lit "-W"; lit "1"; ip].

(** [is_ip_reachable(ip)], the launch being answered by [o]. *)
Definition is_ip_reachable (o : str -> run_outcome) (ip : str) : M bool :=
  proc <- subprocess_run (ping_argv ip) (o ip) ;;
  ret (Z.eqb (fst proc) 0).

(** [pool.map(f, xs)]: the results of the tasks in the order of [xs],
    task [i] being the one for the [i]-th element; an exception raised by
    a task is raised by the call.  The events of the tasks are listed by
    task number: the pool does not fix the order in which they happen.
    When a task raises, which of the later tasks still run depends on how
    the pool chunks and schedules them; the embedding lists none of them,
    and nothing below is stated about the trace of such a run. *)
Fixpoint pool_map_from {A B} (i : nat) (f : nat -> A -> M B) (xs : list A) : M (list B) :=
  match xs with
  | [] => ret []
  | x :: xs' =>
      y <- f i x ;;
      ys <- pool_map_from (S i) f xs' ;;
      ret (y :: ys)
  end.

Definition pool_map {A B} (f : nat -> A -> M B) (xs : list A) : M (list B) :=
  pool_map_from 0 f xs.

(** The body of the loop over [procresultlines]. *)
Definition parse_line (line : str) (lan_dev : dict) : M dict :=
  match search line with
  | Some mac =>
      ip <- index (split line) 0 ;;
      ret (Dict.set mac ip lan_dev)
  | None => ret lan_dev
  end.

Fixpoint parse_lines (lines : list str) (lan_dev : dict) : M dict :=
  match lines with
  | [] => ret lan_dev
  | line :: lines' =>
      lan_dev' <- parse_line line lan_dev ;;
      parse_lines lines' lan_dev'
  end.

(** [list(filter(len, text.split("\n")))] *)
Definition procresultlines (text : str) : list str :=
  filter (fun l => negb (Nat.eqb (length l) 0)) (split_on newline text).

(** The parse step: the candidate set of a neighbour-table text. *)
Definition parse (text : str) : M dict :=
  parse_lines (procresultlines text) [].

(** [for i in range(len(result)): if (not result[i]): lan_dev.pop(all_macs[i])] *)
Fixpoint drop_unreachable (range : list nat) (result : list bool)
    (all_macs : list str) (lan_dev : dict) : M dict :=
  match range with
  | [] => ret lan_dev
  | i :: range' =>
      r <- index result i ;;
      if negb r
      then mac <- index all_macs i ;;
           lan_dev' <- popitem mac lan_dev ;;
           drop_unreachable range' result all_macs lan_dev'
      else drop_unreachable range' result all_macs lan_dev
  end.

(** The filtering stage: the [with multiprocessing.Pool(...)] block. *)
Definition filterReachable (env : Env) (lan_dev : dict) : M dict :=
  tell (PoolStart MULTIPROC_PCOUNT) ;;
  let all_macs := keys lan_dev in
  let all_ips := values lan_dev in
  result <- pool_map (fun i => is_ip_reachable (ping env i)) all_ips ;;
  drop_unreachable (seq 0 (length result)) result all_macs lan_dev.

Definition ip_argv : list str := [lit "ip"; lit "-4"; lit "neigh"; lit "show"].

Definition get_all_reachable_lan_devs (env : Env) : M dict :=
  proc <- subprocess_run ip_argv (ip_neigh env) ;;
  let lines := procresultlines (snd proc) in
  match lines with
  | [] => ret []
  | _ :: _ =>
      lan_dev <- parse_lines lines [] ;;
      filterReachable env lan_dev
  end.

Definition help_words : list str :=
  [lit "help"; lit "-help"; lit "--help"; lit "/help"].

(** One row of the table and the rule under it. *)
Definition print_row (reachable_devs : dict) (dev : str) : M unit :=
  ip <- getitem dev reachable_devs ;;
  print (lit "|  " ++ dev ++ lit "  |  " ++ ip
         ++ repeat space (17 - length ip) ++ lit "|") ;;
  print (repeat plus_sign NPLUS).

Fixpoint print_rows (reachable_devs : dict) (devs : list str) : M unit :=
  match devs with
  | [] => ret tt
  | dev :: devs' =>
      print_row reachable_devs dev ;;
      print_rows reachable_devs devs'
  end.

Definition main (env : Env) : M unit :=
  let argc := length (sys_argv env) in
  wants_help <- (if Nat.ltb 1 argc
                 then a <- index (sys_argv env) 1 ;;
                      ret (existsb (str_eqb a) help_words)
                 else ret false) ;;
  (if wants_help then show_help ;; sys_exit 0 else ret tt) ;;
  (if negb (prereq_installed env)
   then show_missing_dependency ;; sys_exit 1
   else ret tt) ;;
  reachable_devs <- get_all_reachable_lan_devs env ;;
  (if is_empty reachable_devs
   then print (lit "No active devices on local network.") ;; sys_exit 0
   else ret tt) ;;
  print (repeat plus_sign NPLUS) ;;
  print (lit "|      Device MAC     |    IPv4 Address   |") ;;
  print (repeat plus_sign NPLUS) ;;
  print_rows reachable_devs (keys reachable_devs).

(** The exit status of the program. *)
Definition run_program (env : Env) : Z := exit_status (result_of (main env)).

(** The address probed by an event, when the event is a launch of [ping]. *)
Definition probe_of (ev : event) : option str :=
  match ev with
  | Run (prog :: args) =>
      if str_eqb prog (lit "ping") then Some (last args []) else None
  | _ => None
  end.

(** The addresses probed in a trace, one per launch of [ping]. *)
Fixpoint probes (t : trace) : list str :=
  match t with
  | [] => []
  | ev :: t' =>
      match probe_of ev with
      | Some ip => ip :: probes t'
      | None => probes t'
      end
  end.

(** ** Definitions that follow the design document *)

(** Lower case of a code point, for the Latin capitals. *)
Definition lower (c : char) : char :=
  if between 65%N 90%N c then (c + 32)%N else c.

(** The normal form the design document asks of a key: lower case, the
    groups separated by colons. *)
Definition normalize_mac (m : str) : str :=
  map (fun c => if N.eqb c 45%N then 58%N else lower c) m.

(** What a token of [split] is: not empty, and free of white space. *)
Definition token (t : str) : Prop :=
  t <> [] /\ Forall (fun c => isspace c = false) t.

(** The record a line yields: the text of the match and the first token. *)
Definition record_of (line : str) : option (str * str) :=
  match search line, split line with
  | Some mac, ip :: _ => Some (mac, ip)
  | _, _ => None
  end.

(** The candidate set after one more line. *)
Definition insert_record (d : dict) (line : str) : dict :=
  match record_of line with
  | Some (mac, ip) => Dict.set mac ip d
  | None => d
  end.

(** The first argument of the command line asks for help. *)
Definition asks_help (argv : list str) : bool :=
  match argv with
  | _ :: a :: _ => existsb (str_eqb a) help_words
  | _ => false
  end.

(** The entries of [d] at the positions where [result] is true. *)
Fixpoint keep (result : list bool) (d : dict) : dict :=
  match result, d with
  | b :: result', kv :: d' => if b then kv :: keep result' d' else keep result' d'
  | _, _ => []
  end.

(** Every launch of [ping] for the candidates of [d] completes. *)
Definition probes_complete (env : Env) (d : dict) : Prop :=
  forall i ip, nth_error (values d) i = Some ip ->
    exists rc out, ping env i ip = Completed rc out.

(** The outcome of the probe that task [i] of the pool makes of [ip]:
    whether its [ping] completed with exit status 0. *)
Definition outcome (env : Env) (i : nat) (ip : str) : bool :=
  match ping env i ip with
  | Completed rc _ => Z.eqb rc 0
  | Raised _ => false
  end.

(** The outcomes of the tasks for [ips], the first being task [i]. *)
Fixpoint outcomes_from (env : Env) (i : nat) (ips : list str) : list bool :=
  match ips with
  | [] => []
  | ip :: ips' => outcome env i ip :: outcomes_from env (S i) ips'
  end.

(** The outcomes of the probes of the candidates of [d], by position. *)
Definition outcomes (env : Env) (d : dict) : list bool :=
  outcomes_from env 0 (values d).

(** A required program is missing: [shutil.which] finds no [ip], or no
    [ping]. *)
Definition missing_dependency (env : Env) : bool :=
  negb (truthy (which env (lit "ip"))) || negb (truthy (which env (lit "ping"))).

(** The events of a trace other than printing: the launches of programs
    and the start of the pool. *)
Definition discovery_events (t : trace) : trace :=
  filter (fun ev => match ev with Print _ => false | _ => true end) t.

(** What is printed for a device set: the notice for the empty one, the
    table otherwise. *)
Definition rendering (d : dict) : trace :=
  match d with
  | [] => [Print (lit "No active devices on local network.")]
  | _ :: _ =>
      Print (repeat plus_sign NPLUS)
      :: Print (lit "|      Device MAC     |    IPv4 Address   |")
      :: Print (repeat plus_sign NPLUS)
      :: flat_map (fun kv =>
           [Print (lit "|  " ++ fst kv ++ lit "  |  " ++ snd kv
                   ++ repeat space (17 - length (snd kv)) ++ lit "|");
            Print (repeat plus_sign NPLUS)]) d
  end.

(** ** Scenarios *)

Module Scenarios.

Definition mac_a : str := lit "aa:bb:cc:dd:ee:ff".
Definition mac_b : str := lit "11:22:33:44:55:66".
Definition mac_upper : str := lit "AA-BB-CC-DD-EE-FF".
Definition ip_10 : str := lit "192.168.1.10".
Definition ip_11 : str := lit "192.168.1.11".
Definition ip_20 : str := lit "192.168.1.20".

Definition line_a : str :=
  lit "192.168.1.10 dev eth0 lladdr aa:bb:cc:dd:ee:ff REACHABLE".
Definition line_failed : str := lit "192.168.1.11 dev eth0 FAILED".
Definition line_b : str :=
  lit "192.168.1.20 dev eth0 lladdr 11:22:33:44:55:66 STALE".
Definition line_a_moved : str :=
  lit "192.168.1.20 dev eth0 lladdr aa:bb:cc:dd:ee:ff STALE".
Definition line_upper : str :=
  lit "192.168.1.10 dev eth0 lladdr AA-BB-CC-DD-EE-FF REACHABLE".

(** The text [ip] writes for the given lines. *)
Definition text_of (lines : list str) : str :=
  concat (map (fun l => l ++ [newline]) lines).

(** Both programs installed, no argument. *)
Definition env_of (neigh : run_outcome) (answer : nat -> str -> run_outcome) : Env :=
  {| sys_argv := [lit "landevlist.py"];
     which := fun req => Some (lit "/usr/bin/" ++ req);
     ip_neigh := neigh;
     ping := answer |}.

(** [ping] succeeds for 192.168.1.10 and reports no answer otherwise. *)
Definition only_10 (i : nat) (ip : str) : run_outcome :=
  if str_eqb ip ip_10 then Completed 0 [] else Completed 1 [].

(** [ping] succeeds for the first task only, whatever the address. *)
Definition only_first (i : nat) (ip : str) : run_outcome :=
  match i with O => Completed 0 [] | S _ => Completed 1 [] end.

(** [ping] cannot be launched. *)
Definition no_launch (i : nat) (ip : str) : run_outcome := Raised OSError.

Definition env_C : Env :=
  env_of (Completed 0 (text_of [line_a; line_failed; line_b])) only_10.

Definition env_empty : Env := env_of (Completed 0 []) only_10.

Definition env_no_candidate : Env :=
  env_of (Completed 0 (text_of [line_failed])) only_10.

Definition env_help : Env :=
  {| sys_argv := [lit "landevlist.py"; lit "--help"];
     which := fun _ => None;
     ip_neigh := Raised OSError;
     ping := no_launch |}.

Definition env_no_ping : Env :=
  {| sys_argv := [lit "landevlist.py"];
     which := fun req => if str_eqb req (lit "ip")
                         then Some (lit "/usr/sbin/ip") else None;
     ip_neigh := Completed 0 (text_of [line_a]);
     ping := no_launch |}.

(** Two candidates that share one address. *)
Definition same_ip : dict := [(mac_a, ip_10); (mac_b, ip_10)].

(** Twenty-four candidates, more than the pool has workers, with the last
    octets 10 to 33. *)
Definition two_digits (n : nat) : str :=
  [N.of_nat (48 + Nat.div n 10); N.of_nat (48 + Nat.modulo n 10)].

Definition many : dict :=
  map (fun n => (lit "aa:bb:cc:dd:ee:" ++ two_digits n,
                 lit "192.168.1." ++ two_digits n))
      (seq 10 24).

(** The last character of the address is an even digit. *)
Definition even_octet (ip : str) : bool := N.even (last ip 0%N).

(** [ping] succeeds exactly for the addresses with an even last octet. *)
Definition only_even (i : nat) (ip : str) : run_outcome :=
  if even_octet ip then Completed 0 [] else Completed 1 [].

(** A line that starts with blanks. *)
Definition line_indented : str :=
  lit "   192.168.1.10 dev eth0 lladdr aa:bb:cc:dd:ee:ff REACHABLE".

(** A line with two addresses of the shape. *)
Definition line_two_macs : str :=
  lit "192.168.1.10 lladdr 11:22:33:44:55:66 via aa:bb:cc:dd:ee:ff".

(** [ip] fails with exit status 2 after writing the lines of [env_C]. *)
Definition env_C_status_2 : Env :=
  env_of (Completed 2 (text_of [line_a; line_failed; line_b])) only_10.

(** [ip] cannot be launched. *)
Definition env_ip_fails : Env := env_of (Raised OSError) only_10.

(** [ip] answers, the launch of [ping] fails. *)
Definition env_ping_fails : Env :=
  env_of (Completed 0 (text_of [line_a; line_b])) no_launch.

(** An address wider than the column of the table. *)
Definition line_wide : str :=
  lit "fe80::1234:5678:9abc:def0 dev eth0 lladdr aa:bb:cc:dd:ee:ff STALE".

End Scenarios.

(** ** Further notions *)

(** The keys a sequence of lines yields, line by line. *)
Definition matched_keys (lines : list str) : list str :=
  flat_map (fun l => match record_of l with
                     | Some (mac, _) => [mac]
                     | None => []
                     end) lines.

(** The elements of [ks] that are not in [seen], each at its first
    appearance. *)
Fixpoint first_seen (seen ks : list str) : list str :=
  match ks with
  | [] => []
  | k :: ks' =>
      if existsb (str_eqb k) seen then first_seen seen ks'
      else k :: first_seen (seen ++ [k]) ks'
  end.

(** The usage text, line by line as it is printed. *)
Definition usage_lines : list str :=
  [lit "Usage: landevlist";
   lit "Lists devices connected to the local network (LAN) with their MAC and IPv4 addresses." ++ [newline];
   lit "Output is formatted in a tabular structure for readability.";
   lit "Only devices with an active connection will be displayed." ++ [newline];
   lit "Copyright (c) 2025-Present Arijit Kumar Das <arijitkdgit.official@gmail.com> under MIT License." ++ [newline]].

(** The guidance printed when a required program is missing, line by
    line. *)
Definition guidance_lines : list str :=
  [lit "landevlist: A required program was not found on your system.";
   lit "Required programs are: ip, ping";
   lit "Make sure these packages are installed:";
   lit "* iputils-ping (on Debian/Ubuntu), or";
   lit "  iputils (on Arch/RHEL/Fedora)";
   lit "* iproute2 (on Debian/Ubuntu/Arch), or";
   lit "  iproute (on RHEL/Fedora)";
   lit "Please note that package name may vary based on your distro repository upstream."].

(** The text holds nothing but line feeds. *)
Definition only_newlines (text : str) : bool := forallb (N.eqb newline) text.

(** What the program may do: launch [ip -4 neigh show], launch
    [ping -c 1 -W 1] for an address, start a pool of [MULTIPROC_PCOUNT]
    workers, print. *)
Definition allowed_event (ev : event) : Prop :=
  match ev with
  | Run argv => argv = ip_argv \/ exists ip, argv = ping_argv ip
  | PoolStart n => n = MULTIPROC_PCOUNT
  | Print _ => True
  end.

(** Some launch of [ping] for a candidate of [d] raises. *)
Definition some_probe_raises (env : Env) (d : dict) : Prop :=
  exists i ip e, nth_error (values d) i = Some ip /\ ping env i ip = Raised e.

(** * Properties *)

(** Facts that keep the keys of a dictionary distinct. *)
Create HintDb dict.

(** ** Strings *)

Section TextFacts.

Lemma str_eqb_eq (a b : str) : str_eqb a b = true <-> a = b.
Proof.
  revert b; induction a as [|x a IH]; intros [|y b]; simpl; split;
    try congruence; try discriminate.
  - rewrite andb_true_iff, N.eqb_eq, IH. intros [-> ->]. reflexivity.
  - intros E. injection E as -> ->. rewrite N.eqb_refl. simpl.
    apply IH. reflexivity.
Qed.

Lemma str_eqb_refl (a : str) : str_eqb a a = true.
Proof. apply str_eqb_eq. reflexivity. Qed.

Lemma str_eqb_neq (a b : str) : str_eqb a b = false <-> a <> b.
Proof.
  rewrite <- str_eqb_eq. destruct (str_eqb a b); split; congruence.
Qed.

Lemma between_spec (lo hi c : char) :
  between lo hi c = true <-> (lo <= c /\ c <= hi)%N.
Proof. unfold between. rewrite andb_true_iff, !N.leb_le. tauto. Qed.

Lemma is_hex_spec (c : char) :
  is_hex c = true <->
  ((48 <= c /\ c <= 57) \/ (65 <= c /\ c <= 70) \/ (97 <= c /\ c <= 102))%N.
Proof. unfold is_hex. rewrite !orb_true_iff, !between_spec. tauto. Qed.

Lemma is_sep_spec (c : char) : is_sep c = true <-> (c = 58 \/ c = 45)%N.
Proof. unfold is_sep. rewrite orb_true_iff, !N.eqb_eq. tauto. Qed.

Lemma isspace_spec (c : char) :
  isspace c = true <->
  ((9 <= c /\ c <= 13) \/ (28 <= c /\ c <= 32) \/ c = 133 \/ c = 160
   \/ c = 5760 \/ (8192 <= c /\ c <= 8202) \/ c = 8232 \/ c = 8233
   \/ c = 8239 \/ c = 8287 \/ c = 12288)%N.
Proof.
  unfold isspace. rewrite !orb_true_iff, !between_spec, !N.eqb_eq. tauto.
Qed.

(** A hexadecimal digit is not white space. *)
Lemma hex_not_space (c : char) : is_hex c = true -> isspace c = false.
Proof.
  intros H. apply not_true_is_false. intros W.
  apply is_hex_spec in H. apply isspace_spec in W. lia.
Qed.

Lemma split_from_tokens (s acc : str) :
  Forall (fun c => isspace c = false) acc ->
  Forall token (split_from acc s).
Proof.
  revert acc; induction s as [|c s IH]; intros acc Hacc; simpl.
  - destruct acc as [|a acc]; constructor; [|constructor].
    split.
    + intros E. apply (f_equal (@length _)) in E.
      rewrite length_rev in E. discriminate.
    + apply Forall_rev. exact Hacc.
  - destruct (isspace c) eqn:W.
    + destruct acc as [|a acc]; [apply IH; constructor|].
      constructor; [|apply IH; constructor].
      split.
      * intros E. apply (f_equal (@length _)) in E.
        rewrite length_rev in E. discriminate.
      * apply Forall_rev. exact Hacc.
    + apply IH. constructor; assumption.
Qed.

Lemma split_tokens (s : str) : Forall token (split s).
Proof. apply split_from_tokens. constructor. Qed.

Lemma split_from_nonempty_acc (s acc : str) :
  acc <> [] -> split_from acc s <> [].
Proof.
  revert acc; induction s as [|c s IH]; intros acc Hacc; simpl.
  - destruct acc; [contradiction | discriminate].
  - destruct (isspace c).
    + destruct acc; [contradiction | discriminate].
    + apply IH. discriminate.
Qed.

(** A string with a character that is not white space has a token. *)
Lemma split_nonempty (s : str) :
  Exists (fun c => isspace c = false) s -> split s <> [].
Proof.
  unfold split. generalize (@nil char) as acc.
  induction s as [|c s IH]; intros acc H; [inversion H|].
  simpl. destruct (isspace c) eqn:W.
  - inversion H as [? ? Hc | ? ? Hs]; subst; [congruence|].
    destruct acc; [apply IH; exact Hs | discriminate].
  - apply split_from_nonempty_acc. discriminate.
Qed.

Lemma split_on_nonempty (sep : char) (s : str) : split_on sep s <> [].
Proof.
  induction s as [|c s IH]; simpl; [discriminate|].
  destruct (N.eqb c sep); [discriminate|].
  destruct (split_on sep s); discriminate.
Qed.

End TextFacts.

(** ** The pattern *)

Section PatternFacts.

Lemma hex2_Some (s r : str) :
  hex2 s = Some r <->
  exists a b, s = a :: b :: r /\ is_hex a = true /\ is_hex b = true.
Proof.
  unfold hex2. split.
  - destruct s as [|a [|b s]]; try discriminate.
    destruct (is_hex a) eqn:Ha, (is_hex b) eqn:Hb; simpl; try discriminate.
    intros E. injection E as <-. eauto.
  - intros (a & b & -> & Ha & Hb). rewrite Ha, Hb. reflexivity.
Qed.

Lemma group_Some (s r : str) :
  group s = Some r <->
  exists a b c, s = a :: b :: c :: r
    /\ is_hex a = true /\ is_hex b = true /\ is_sep c = true.
Proof.
  unfold group. split.
  - destruct (hex2 s) as [[|c r']|] eqn:E; try discriminate.
    apply hex2_Some in E. destruct E as (a & b & -> & Ha & Hb).
    destruct (is_sep c) eqn:Hc; try discriminate.
    intros E. injection E as <-. exists a, b, c. auto.
  - intros (a & b & c & -> & Ha & Hb & Hc).
    assert (E : hex2 (a :: b :: c :: r) = Some (c :: r))
      by (apply hex2_Some; eauto).
    rewrite E, Hc. reflexivity.
Qed.

(** A match of the pattern consumes seventeen characters of the shape. *)
Lemma mac_pattern_Some (s r : str) :
  mac_pattern s = Some r ->
  s = firstn mac_len s ++ r /\ mac_shape (firstn mac_len s) = true.
Proof.
  unfold mac_pattern. simpl times.
  destruct (group s) as [s1|] eqn:G1; [|discriminate].
  destruct (group s1) as [s2|] eqn:G2; [|discriminate].
  destruct (group s2) as [s3|] eqn:G3; [|discriminate].
  destruct (group s3) as [s4|] eqn:G4; [|discriminate].
  destruct (group s4) as [s5|] eqn:G5; [|discriminate].
  intros H6.
  apply group_Some in G1, G2, G3, G4, G5. apply hex2_Some in H6.
  destruct G1 as (a1 & b1 & c1 & -> & ? & ? & ?).
  destruct G2 as (a2 & b2 & c2 & -> & ? & ? & ?).
  destruct G3 as (a3 & b3 & c3 & -> & ? & ? & ?).
  destruct G4 as (a4 & b4 & c4 & -> & ? & ? & ?).
  destruct G5 as (a5 & b5 & c5 & -> & ? & ? & ?).
  destruct H6 as (a6 & b6 & -> & ? & ?).
  split; [reflexivity|].
  unfold mac_shape. simpl.
  repeat match goal with H : _ = true |- _ => rewrite H; clear H end.
  reflexivity.
Qed.

(** A string of the shape, followed by anything, matches the pattern. *)
Lemma mac_shape_matches (m post : str) :
  mac_shape m = true -> mac_pattern (m ++ post) = Some post.
Proof.
  unfold mac_shape. rewrite andb_true_iff, Nat.eqb_eq. intros [L S].
  do 17 (destruct m as [|? m]; [discriminate L|]).
  destruct m; [|discriminate L]. clear L.
  simpl in S. rewrite !andb_true_iff in S.
  decompose [and] S; clear S.
  unfold mac_pattern, times, group, hex2. simpl.
  repeat (match goal with H : _ = true |- _ => rewrite H; clear H end; simpl).
  reflexivity.
Qed.

Lemma search_Some (line m : str) :
  search line = Some m ->
  mac_shape m = true /\ exists pre post, line = pre ++ m ++ post.
Proof.
  induction line as [|c line IH]; simpl.
  - destruct (mac_pattern []) eqn:E; [|discriminate].
    apply mac_pattern_Some in E. destruct E as [_ E]. discriminate E.
  - destruct (mac_pattern (c :: line)) as [r|] eqn:E.
    + intros H. injection H as <-.
      apply mac_pattern_Some in E. destruct E as [E1 E2].
      split; [exact E2|]. exists [], r. exact E1.
    + intros H. destruct (IH H) as [S (pre & post & ->)].
      split; [exact S|]. exists (c :: pre), post. reflexivity.
Qed.

Lemma search_None (line : str) :
  search line = None <-> ~ contains_mac line.
Proof.
  split.
  - induction line as [|c line IH]; simpl.
    + intros _ (pre & m & post & E & S).
      destruct pre; [|discriminate]. destruct m; [|discriminate].
      discriminate S.
    + destruct (mac_pattern (c :: line)) eqn:E; [discriminate|].
      intros H (pre & m & post & El & S).
      destruct pre as [|c' pre]; simpl in El.
      * rewrite El, (mac_shape_matches _ post S) in E. discriminate.
      * injection El as -> ->. apply (IH H). exists pre, m, post. auto.
  - intros H. destruct (search line) as [m|] eqn:E; [|reflexivity].
    exfalso. apply H. apply search_Some in E.
    destruct E as [S (pre & post & ->)]. exists pre, m, post. auto.
Qed.

Lemma no_mac_in_empty : ~ contains_mac [].
Proof. apply search_None. reflexivity. Qed.

(** A line on which the pattern matches holds a character that is not
    white space: the first character of the match. *)
Lemma matched_line_not_blank (line m : str) :
  search line = Some m -> Exists (fun c => isspace c = false) line.
Proof.
  intros H. apply search_Some in H. destruct H as [S (pre & post & ->)].
  unfold mac_shape in S. rewrite andb_true_iff in S. destruct S as [L S].
  destruct m as [|h m]; [discriminate L|].
  simpl in S. rewrite andb_true_iff in S. destruct S as [Hh _].
  apply Exists_app. right. apply Exists_cons_hd. apply hex_not_space, Hh.
Qed.

End PatternFacts.

(** ** Dictionaries *)

Section DictFacts.

Lemma lookup_set_same (k v : str) (d : dict) :
  lookup k (Dict.set k v d) = Some v.
Proof.
  induction d as [|[k' v'] d IH]; simpl.
  - rewrite str_eqb_refl. reflexivity.
  - destruct (str_eqb k k') eqn:E; simpl; rewrite E; auto.
Qed.

Lemma lookup_set_other (k k' v : str) (d : dict) :
  k' <> k -> lookup k' (Dict.set k v d) = lookup k' d.
Proof.
  intros N. induction d as [|[k0 v0] d IH]; simpl.
  - apply str_eqb_neq in N. rewrite N. reflexivity.
  - destruct (str_eqb k k0) eqn:E; simpl.
    + apply str_eqb_eq in E. subst k0.
      apply str_eqb_neq in N. rewrite N. reflexivity.
    + rewrite IH. reflexivity.
Qed.

Lemma keys_set (k v : str) (d : dict) :
  keys (Dict.set k v d)
  = match lookup k d with Some _ => keys d | None => keys d ++ [k] end.
Proof.
  induction d as [|[k' v'] d IH]; simpl; [reflexivity|].
  destruct (str_eqb k k') eqn:E; simpl; [reflexivity|].
  rewrite IH. destruct (lookup k d); reflexivity.
Qed.

Lemma lookup_None (k : str) (d : dict) :
  lookup k d = None <-> ~ In k (keys d).
Proof.
  induction d as [|[k' v'] d IH]; simpl; [tauto|].
  destruct (str_eqb k k') eqn:E.
  - apply str_eqb_eq in E. subst. split; [discriminate | tauto].
  - apply str_eqb_neq in E. rewrite IH. split; [intros H [C|C]; auto | tauto].
Qed.

Lemma wf_nil : wf [].
Proof. constructor. Qed.

(** [d[k] = v] keeps the keys distinct. *)
Lemma wf_set (k v : str) (d : dict) : wf d -> wf (Dict.set k v d).
Proof.
  unfold wf. intros H. rewrite keys_set.
  destruct (lookup k d) eqn:E; [exact H|].
  apply lookup_None in E.
  apply NoDup_rev in H. rewrite <- (rev_involutive (keys d ++ [k])).
  apply NoDup_rev. rewrite rev_app_distr. simpl.
  constructor; [rewrite <- in_rev; exact E | exact H].
Qed.

Lemma lookup_In (k v : str) (d : dict) :
  wf d -> (lookup k d = Some v <-> In (k, v) d).
Proof.
  unfold wf. induction d as [|[k' v'] d IH]; simpl; intros W.
  - split; [discriminate | tauto].
  - inversion W as [|? ? Hk Hd]; subst.
    destruct (str_eqb k k') eqn:E.
    + apply str_eqb_eq in E. subst k'. split.
      * intros H. injection H as ->. auto.
      * intros [H|H]; [congruence|].
        exfalso. apply Hk. apply (in_map fst) in H. exact H.
    + apply str_eqb_neq in E. rewrite (IH Hd). split; [auto|].
      intros [H|H]; [congruence | exact H].
Qed.

(** [d.pop(k)] takes out the entry of [k], and nothing else. *)
Lemma pop_Some (k : str) (d d' : dict) :
  pop k d = Some d' ->
  exists a v b, d = a ++ (k, v) :: b /\ d' = a ++ b /\ ~ In k (keys a).
Proof.
  revert d'; induction d as [|[k' v'] d IH]; simpl; intros d'; [discriminate|].
  destruct (str_eqb k k') eqn:E.
  - apply str_eqb_eq in E. subst k'. intros H. injection H as <-.
    exists [], v', d. auto.
  - apply str_eqb_neq in E.
    destruct (pop k d) as [r|] eqn:P; [|discriminate].
    intros H. injection H as <-.
    destruct (IH r eq_refl) as (a & v & b & -> & -> & Na).
    exists ((k', v') :: a), v, b. simpl. intuition congruence.
Qed.

Lemma pop_middle (k v : str) (a b : dict) :
  ~ In k (keys a) -> pop k (a ++ (k, v) :: b) = Some (a ++ b).
Proof.
  induction a as [|[k' v'] a IH]; simpl; intros N.
  - rewrite str_eqb_refl. reflexivity.
  - assert (E : str_eqb k k' = false) by (apply str_eqb_neq; intuition).
    rewrite E, IH by tauto. reflexivity.
Qed.

Lemma pop_incl (k : str) (d d' : dict) : pop k d = Some d' -> incl d' d.
Proof.
  intros H. destruct (pop_Some _ _ H) as (a & v & b & -> & -> & _).
  intros x Hx. apply in_app_iff in Hx. apply in_app_iff. simpl. tauto.
Qed.

Lemma pop_wf (k : str) (d d' : dict) : pop k d = Some d' -> wf d -> wf d'.
Proof.
  intros H. destruct (pop_Some _ _ H) as (a & v & b & -> & -> & _).
  unfold wf, keys. rewrite !map_app. simpl. apply NoDup_remove_1.
Qed.

(** The positional filter keeps entries of the dictionary, in place. *)
Lemma keep_incl (result : list bool) (d : dict) : incl (keep result d) d.
Proof.
  revert d; induction result as [|b result IH]; intros [|kv d]; simpl;
    try (intros x []).
  destruct b.
  - intros x [->|H]; [left; reflexivity | right; apply IH, H].
  - intros x H. right. apply IH, H.
Qed.

Lemma keep_app (r1 r2 : list bool) (d1 d2 : dict) :
  length r1 = length d1 ->
  keep (r1 ++ r2) (d1 ++ d2) = keep r1 d1 ++ keep r2 d2.
Proof.
  revert d1; induction r1 as [|b r1 IH]; intros [|kv d1]; simpl;
    try discriminate; [reflexivity|].
  intros L. injection L as L. rewrite (IH _ L). destruct b; reflexivity.
Qed.

Lemma keep_In (result : list bool) (d : dict) (kv : str * str) :
  In kv (keep result d) <->
  exists i, nth_error d i = Some kv /\ nth_error result i = Some true.
Proof.
  revert d; induction result as [|b result IH]; intros [|x d]; simpl.
  - split; [tauto | intros ([|i] & H & _); discriminate].
  - split; [tauto | intros ([|i] & _ & H); discriminate].
  - split; [tauto | intros ([|i] & H & _); discriminate].
  - destruct b; simpl; rewrite ?IH; split.
    + intros [->|(i & H1 & H2)]; [exists 0; auto | exists (S i); auto].
    + intros ([|i] & H1 & H2); simpl in *; [left; congruence | right; eauto].
    + intros (i & H1 & H2). exists (S i). auto.
    + intros ([|i] & H1 & H2); simpl in *; [discriminate | eauto].
Qed.

End DictFacts.

#[local] Hint Resolve wf_nil wf_set : dict.

(** ** Computations *)

Section MonadFacts.

Lemma bind_ret_l {A B} (a : A) (k : A -> M B) : bind (ret a) k = k a.
Proof. unfold bind, ret. destruct (k a). reflexivity. Qed.

(** A computation that returns splits at any bind. *)
Lemma bind_returns {A B} (m : M A) (k : A -> M B) (b : B) :
  result_of (bind m k) = inr b ->
  exists a, result_of m = inr a /\ result_of (k a) = inr b
    /\ trace_of (bind m k) = trace_of m ++ trace_of (k a).
Proof.
  destruct m as [[e|a] t]; simpl; [discriminate|].
  destruct (k a) as [r t'] eqn:E. simpl. intros ->.
  exists a. rewrite E. auto.
Qed.

End MonadFacts.

(** ** The parse step *)

Section ParseFacts.

Lemma record_of_Some (line mac ip : str) :
  record_of line = Some (mac, ip) <->
  search line = Some mac /\ nth_error (split line) 0 = Some ip.
Proof.
  unfold record_of.
  destruct (search line) as [m|]; destruct (split line) as [|t ts]; simpl;
    split; try discriminate; try (intros [? ?]; discriminate).
  - intros H. injection H as -> ->. auto.
  - intros [H1 H2]. congruence.
Qed.

(** A match always comes with a first token. *)
Lemma record_of_matched (line mac : str) :
  search line = Some mac -> exists ip, record_of line = Some (mac, ip).
Proof.
  intros H. unfold record_of. rewrite H.
  pose proof (split_nonempty (matched_line_not_blank _ H)) as N.
  destruct (split line) as [|ip ts]; [contradiction|]. eauto.
Qed.

Lemma record_of_None (line : str) :
  record_of line = None <-> search line = None.
Proof.
  split.
  - destruct (search line) as [m|] eqn:E; [|reflexivity].
    destruct (record_of_matched _ E) as [ip R]. congruence.
  - unfold record_of. intros ->. reflexivity.
Qed.

Lemma record_of_shape (line mac ip : str) :
  record_of line = Some (mac, ip) -> mac_shape mac = true /\ token ip.
Proof.
  intros H. apply record_of_Some in H. destruct H as [H1 H2]. split.
  - apply search_Some in H1. tauto.
  - pose proof (split_tokens line) as T.
    destruct (split line) as [|t ts]; [discriminate|].
    injection H2 as <-. inversion T. assumption.
Qed.

(** The body of the loop never raises and does nothing but update the
    dictionary. *)
Lemma parse_line_pure (line : str) (d : dict) :
  parse_line line d = ret (insert_record d line).
Proof.
  unfold parse_line, insert_record.
  destruct (search line) as [mac|] eqn:E.
  - destruct (record_of_matched _ E) as [ip R]. rewrite R.
    apply record_of_Some in R. destruct R as [_ R].
    unfold index. rewrite R, bind_ret_l. reflexivity.
  - apply record_of_None in E. rewrite E. reflexivity.
Qed.

Lemma parse_lines_pure (lines : list str) (d : dict) :
  parse_lines lines d = ret (fold_left insert_record lines d).
Proof.
  revert d; induction lines as [|line lines IH]; intros d; simpl.
  - reflexivity.
  - rewrite parse_line_pure, bind_ret_l. apply IH.
Qed.

Lemma insert_record_wf (d : dict) (line : str) :
  wf d -> wf (insert_record d line).
Proof.
  unfold insert_record. destruct (record_of line) as [[mac ip]|];
    auto with dict.
Qed.

Lemma fold_insert_wf (lines : list str) (d : dict) :
  wf d -> wf (fold_left insert_record lines d).
Proof.
  revert d; induction lines as [|line lines IH]; intros d W; simpl; auto.
  apply IH, insert_record_wf, W.
Qed.

(** Lines that yield another key leave the entry of [mac] alone. *)
Lemma fold_insert_other (lines : list str) (d : dict) (mac : str) :
  (forall l, In l lines -> search l <> Some mac) ->
  lookup mac (fold_left insert_record lines d) = lookup mac d.
Proof.
  revert d; induction lines as [|line lines IH]; intros d H; simpl; auto.
  rewrite IH by (intros l Hl; apply H; right; exact Hl).
  unfold insert_record. destruct (record_of line) as [[m ip]|] eqn:R; auto.
  apply lookup_set_other. intros ->.
  apply record_of_Some in R. destruct R as [R _].
  exact (H line (or_introl eq_refl) R).
Qed.

(** Lines without a record can be left out. *)
Lemma fold_insert_filter (p : str -> bool) (lines : list str) (d : dict) :
  (forall l, In l lines -> p l = false -> record_of l = None) ->
  fold_left insert_record (filter p lines) d = fold_left insert_record lines d.
Proof.
  revert d; induction lines as [|line lines IH]; intros d H; simpl; auto.
  destruct (p line) eqn:P; simpl.
  - apply IH. intros l Hl. apply H. right. exact Hl.
  - assert (E : insert_record d line = d)
      by (unfold insert_record; rewrite (H line (or_introl eq_refl) P);
          reflexivity).
    rewrite E. apply IH. intros l Hl. apply H. right. exact Hl.
Qed.

(** Where the entries of the candidate set come from. *)
Lemma fold_insert_In (lines : list str) (d : dict) (kv : str * str) :
  In kv (fold_left insert_record lines d) ->
  In kv d \/ exists line, In line lines /\ record_of line = Some kv.
Proof.
  revert d; induction lines as [|line lines IH]; intros d; simpl; auto.
  intros H. destruct (IH _ H) as [H1|(l & Hl & R)].
  - unfold insert_record in H1.
    destruct (record_of line) as [[mac ip]|] eqn:R; auto.
    clear - H1 R. induction d as [|[k v] d IHd]; simpl in H1.
    + destruct H1 as [<-|[]]. right. eauto.
    + destruct (str_eqb mac k) eqn:E.
      * apply str_eqb_eq in E. subst k.
        destruct H1 as [<-|H1]; [right; eauto | left; right; exact H1].
      * destruct H1 as [<-|H1]; [left; left; reflexivity|].
        destruct (IHd H1) as [?|?]; [left; right; assumption | right; assumption].
  - right. eauto.
Qed.

Lemma procresultlines_In (text line : str) :
  In line (procresultlines text) <->
  In line (split_on newline text) /\ line <> [].
Proof.
  unfold procresultlines. rewrite filter_In.
  destruct line; simpl; intuition congruence.
Qed.

Lemma parse_pure (text : str) :
  parse text = ret (fold_left insert_record (procresultlines text) []).
Proof. apply parse_lines_pure. Qed.

End ParseFacts.

#[local] Hint Resolve insert_record_wf fold_insert_wf : dict.

(** ** The probe and the pool stage *)

Section PoolFacts.

Variable env : Env.

Lemma is_ip_reachable_run (o : str -> run_outcome) (ip : str) :
  is_ip_reachable o ip =
  (match o ip with
   | Completed rc _ => inr (Z.eqb rc 0)
   | Raised e => inl e
   end, [Run (ping_argv ip)]).
Proof.
  unfold is_ip_reachable, subprocess_run, bind, ret.
  destruct (o ip); reflexivity.
Qed.

Lemma pool_map_from_complete (i : nat) (ips : list str) :
  (forall j ip, nth_error ips j = Some ip ->
     exists rc out, ping env (i + j) ip = Completed rc out) ->
  pool_map_from i (fun i => is_ip_reachable (ping env i)) ips
  = (inr (outcomes_from env i ips), map (fun ip => Run (ping_argv ip)) ips).
Proof.
  revert i; induction ips as [|ip ips IH]; intros i H; simpl; [reflexivity|].
  destruct (H 0 ip eq_refl) as (rc & out & E). rewrite Nat.add_0_r in E.
  rewrite is_ip_reachable_run, E.
  rewrite IH.
  - unfold bind, ret, outcome. rewrite E, app_nil_r. reflexivity.
  - intros j ip' Hj. rewrite Nat.add_succ_comm. apply (H (S j)). exact Hj.
Qed.

Lemma outcomes_from_length (i : nat) (ips : list str) :
  length (outcomes_from env i ips) = length ips.
Proof. revert i; induction ips; intros i; simpl; auto. Qed.

Lemma outcomes_from_nth (i j : nat) (ips : list str) :
  nth_error (outcomes_from env i ips) j
  = option_map (outcome env (i + j)) (nth_error ips j).
Proof.
  revert i j; induction ips as [|ip ips IH]; intros i [|j]; simpl; auto.
  - rewrite Nat.add_0_r. reflexivity.
  - rewrite IH, Nat.add_succ_comm. reflexivity.
Qed.

(** The loop over [range(len(result))], started after the positions of
    [pre]: what is left of [pre] stays, and of [suf] the entries with a
    true result. *)
Lemma drop_unreachable_keep (suf pre : dict) (rpre rsuf : list bool) :
  wf (pre ++ suf) ->
  length rpre = length pre -> length rsuf = length suf ->
  drop_unreachable (seq (length pre) (length suf)) (rpre ++ rsuf)
    (keys (pre ++ suf)) (keep rpre pre ++ suf)
  = ret (keep rpre pre ++ keep rsuf suf).
Proof.
  revert pre rpre rsuf.
  induction suf as [|[k v] suf IH]; intros pre rpre rsuf W Lp Ls.
  - destruct rsuf; [|discriminate]. reflexivity.
  - destruct rsuf as [|b rsuf]; [discriminate|]. injection Ls as Ls.
    simpl seq. simpl drop_unreachable.
    assert (Er : index (rpre ++ b :: rsuf) (length pre) = ret b).
    { unfold index. rewrite <- Lp, nth_error_app2, Nat.sub_diag by lia.
      reflexivity. }
    rewrite Er, bind_ret_l.
    assert (Epre : pre ++ (k, v) :: suf = (pre ++ [(k, v)]) ++ suf)
      by (rewrite <- app_assoc; reflexivity).
    assert (Lpre : S (length pre) = length (pre ++ [(k, v)]))
      by (rewrite length_app; simpl; lia).
    destruct b; simpl negb; cbv iota.
    + specialize (IH (pre ++ [(k, v)]) (rpre ++ [true]) rsuf).
      rewrite <- Epre, <- Lpre in IH.
      rewrite keep_app in IH by exact Lp. simpl in IH.
      rewrite <- !app_assoc in IH. simpl in IH.
      apply IH; auto. rewrite !length_app. simpl. lia.
    + assert (Em : index (keys (pre ++ (k, v) :: suf)) (length pre) = ret k).
      { unfold index, keys. rewrite map_app.
        rewrite nth_error_app2 by (rewrite length_map; lia).
        rewrite length_map, Nat.sub_diag. reflexivity. }
      rewrite Em, bind_ret_l.
      assert (Nk : ~ In k (keys (keep rpre pre))).
      { intros Hk. unfold wf, keys in W. rewrite map_app in W. simpl in W.
        apply NoDup_remove_2 in W. apply W. apply in_or_app. left.
        unfold keys in Hk. apply in_map_iff in Hk.
        destruct Hk as (x & <- & Hx). apply in_map.
        apply (keep_incl rpre pre). exact Hx. }
      unfold popitem. rewrite (@pop_middle k v _ suf Nk), bind_ret_l.
      specialize (IH (pre ++ [(k, v)]) (rpre ++ [false]) rsuf).
      rewrite <- Epre, <- Lpre in IH.
      rewrite keep_app in IH by exact Lp. simpl in IH.
      rewrite <- !app_assoc in IH. simpl in IH. rewrite ?app_nil_r in IH.
      apply IH; auto. rewrite !length_app. simpl. lia.
Qed.

(** The loop prints nothing and launches nothing. *)
Lemma drop_unreachable_silent (range : list nat) (result : list bool)
    (all_macs : list str) (d : dict) :
  trace_of (drop_unreachable range result all_macs d) = [].
Proof.
  revert d; induction range as [|i range IH]; intros d; simpl; [reflexivity|].
  unfold index. destruct (nth_error result i) as [b|]; [|reflexivity].
  rewrite bind_ret_l. destruct b; simpl; [apply IH|].
  destruct (nth_error all_macs i) as [mac|]; [|reflexivity].
  rewrite bind_ret_l. unfold popitem.
  destruct (pop mac d) as [d'|]; [|reflexivity].
  rewrite bind_ret_l. apply IH.
Qed.

(** The loop only removes entries. *)
Lemma drop_unreachable_incl (range : list nat) (result : list bool)
    (all_macs : list str) (d d' : dict) :
  result_of (drop_unreachable range result all_macs d) = inr d' ->
  incl d' d /\ (wf d -> wf d').
Proof.
  revert d; induction range as [|i range IH]; intros d; simpl.
  - intros H. injection H as <-. split; [apply incl_refl | auto].
  - unfold index. destruct (nth_error result i) as [b|]; [|discriminate].
    rewrite bind_ret_l. destruct b; simpl; [apply IH|].
    destruct (nth_error all_macs i) as [mac|]; [|discriminate].
    rewrite bind_ret_l. unfold popitem.
    destruct (pop mac d) as [d1|] eqn:P; [|discriminate].
    rewrite bind_ret_l. intros H. destruct (IH _ H) as [I W]. split.
    + eapply incl_tran; [exact I | eapply pop_incl; exact P].
    + intros Wd. apply W. eapply pop_wf; eauto.
Qed.

Lemma probes_runs (ips : list str) :
  probes (map (fun ip => Run (ping_argv ip)) ips) = ips.
Proof. induction ips as [|ip ips IH]; simpl; [|rewrite IH]; reflexivity. Qed.

(** The filtering stage when every launch completes. *)
Lemma filterReachable_complete (d : dict) :
  wf d -> probes_complete env d ->
  filterReachable env d
  = (inr (keep (outcomes env d) d),
     PoolStart MULTIPROC_PCOUNT :: map (fun ip => Run (ping_argv ip)) (values d)).
Proof.
  intros W C. unfold filterReachable, pool_map.
  rewrite (@pool_map_from_complete 0 (values d)) by exact C.
  pose proof (@drop_unreachable_keep d [] [] (outcomes env d) W eq_refl) as D.
  simpl in D. unfold outcomes in D.
  rewrite outcomes_from_length in D. unfold values in D at 1.
  rewrite length_map in D. specialize (D eq_refl).
  unfold tell, bind.
  rewrite outcomes_from_length.
  replace (length (values d)) with (length d) by (symmetry; apply length_map).
  rewrite D. simpl. rewrite app_nil_r. reflexivity.
Qed.

(** The filtering stage only removes entries, whatever the probes do. *)
Lemma filterReachable_incl (d d' : dict) :
  result_of (filterReachable env d) = inr d' -> incl d' d /\ (wf d -> wf d').
Proof.
  unfold filterReachable. intros H.
  apply bind_returns in H. destruct H as ([] & _ & H & _).
  apply bind_returns in H. destruct H as (result & _ & H & _).
  eapply drop_unreachable_incl. exact H.
Qed.

End PoolFacts.

(** ** The whole discovery and [main] *)

Section PipelineFacts.

Variable env : Env.

Lemma get_all_completed (rc : Z) (text : str) :
  ip_neigh env = Completed rc text ->
  get_all_reachable_lan_devs env =
  match procresultlines text with
  | [] => (inr [], [Run ip_argv])
  | _ :: _ =>
      (result_of (filterReachable env (fold_left insert_record (procresultlines text) [])),
       Run ip_argv
       :: trace_of (filterReachable env (fold_left insert_record (procresultlines text) [])))
  end.
Proof.
  intros E. unfold get_all_reachable_lan_devs, subprocess_run. rewrite E.
  unfold bind at 1. simpl snd.
  destruct (procresultlines text) as [|l ls] eqn:L; [reflexivity|].
  rewrite parse_lines_pure, bind_ret_l.
  destruct (filterReachable env _) as [r t]. reflexivity.
Qed.

Lemma get_all_raised (e : exn) :
  ip_neigh env = Raised e ->
  get_all_reachable_lan_devs env = (inl e, [Run ip_argv]).
Proof.
  intros E. unfold get_all_reachable_lan_devs, subprocess_run. rewrite E.
  reflexivity.
Qed.

(** The discovery when [ip] and every [ping] complete: the candidates of
    the text, filtered by the outcomes of their probes. *)
Lemma get_all_complete (rc : Z) (text : str) :
  ip_neigh env = Completed rc text ->
  probes_complete env (fold_left insert_record (procresultlines text) []) ->
  result_of (get_all_reachable_lan_devs env)
  = inr (keep (outcomes env (fold_left insert_record (procresultlines text) []))
              (fold_left insert_record (procresultlines text) [])).
Proof.
  intros E C. rewrite (get_all_completed E).
  destruct (procresultlines text) as [|l ls] eqn:L; [reflexivity|].
  rewrite filterReachable_complete; [reflexivity | auto with dict | exact C].
Qed.

(** A discovery that returns had its neighbour table, and returns entries
    of the candidate set. *)
Lemma get_all_returns_inv (d : dict) :
  result_of (get_all_reachable_lan_devs env) = inr d ->
  exists rc text,
    ip_neigh env = Completed rc text
    /\ incl d (fold_left insert_record (procresultlines text) [])
    /\ wf d.
Proof.
  destruct (ip_neigh env) as [rc text|e] eqn:E.
  - rewrite (get_all_completed E). intros H. exists rc, text.
    split; [reflexivity|].
    destruct (procresultlines text) as [|l ls] eqn:L.
    + injection H as <-. split; [apply incl_refl | apply wf_nil].
    + change (result_of (filterReachable env
                (fold_left insert_record (l :: ls) [])) = inr d) in H.
      apply filterReachable_incl in H. destruct H as [I W].
      split; [exact I|]. apply W, fold_insert_wf, wf_nil.
  - rewrite (get_all_raised E). discriminate.
Qed.

Lemma wants_help_pure (argv : list str) :
  (if Nat.ltb 1 (length argv)
   then a <- index argv 1 ;; ret (existsb (str_eqb a) help_words)
   else ret false)
  = ret (asks_help argv).
Proof.
  destruct argv as [|a0 [|a1 rest]]; reflexivity.
Qed.

Lemma prereq_installed_missing :
  prereq_installed env = negb (missing_dependency env).
Proof.
  unfold prereq_installed, missing_dependency, prereq_loop.
  destruct (truthy (which env (lit "ip"))); [|reflexivity].
  destruct (truthy (which env (lit "ping"))); reflexivity.
Qed.

Lemma print_rows_keys (d sub : dict) :
  wf d -> incl sub d ->
  print_rows d (keys sub)
  = (inr tt,
     flat_map (fun kv =>
       [Print (lit "|  " ++ fst kv ++ lit "  |  " ++ snd kv
               ++ repeat space (17 - length (snd kv)) ++ lit "|");
        Print (repeat plus_sign NPLUS)]) sub).
Proof.
  intros W. induction sub as [|[k v] sub IH]; intros I; [reflexivity|].
  simpl keys. simpl print_rows. unfold print_row, getitem.
  assert (L : lookup k d = Some v)
    by (apply lookup_In; [exact W | apply I; left; reflexivity]).
  rewrite L, bind_ret_l, IH by (intros x Hx; apply I; right; exact Hx).
  reflexivity.
Qed.

(** [main], case by case. *)
Lemma main_cases :
  main env =
  if asks_help (sys_argv env)
  then (inl (SystemExit 0), trace_of show_help)
  else if missing_dependency env
  then (inl (SystemExit 1), trace_of show_missing_dependency)
  else match get_all_reachable_lan_devs env with
       | (inl e, t) => (inl e, t)
       | (inr d, t) =>
           (if is_empty d then inl (SystemExit 0) else inr tt,
            t ++ rendering d)
       end.
Proof.
  unfold main. rewrite wants_help_pure, bind_ret_l.
  destruct (asks_help (sys_argv env)); [reflexivity|].
  rewrite bind_ret_l, prereq_installed_missing, negb_involutive.
  destruct (missing_dependency env); [reflexivity|].
  rewrite bind_ret_l.
  destruct (get_all_reachable_lan_devs env) as [[e|d] t] eqn:G;
    [reflexivity|].
  assert (W : wf d).
  { assert (R : result_of (get_all_reachable_lan_devs env) = inr d)
      by (rewrite G; reflexivity).
    destruct (get_all_returns_inv R) as (_ & _ & _ & _ & W). exact W. }
  unfold bind at 1.
  destruct d as [|kv d]; [reflexivity|].
  simpl is_empty. cbv iota. rewrite bind_ret_l.
  unfold print, tell, bind at 1 2 3.
  rewrite (print_rows_keys W (@incl_refl _ _)). reflexivity.
Qed.

End PipelineFacts.

(** * The claims *)

Import Scenarios.

(** ** The filtering stage *)

(** C1.  For every candidate set and every assignment of probe outcomes
    (every [ping] completing with some exit status), the filtering stage
    returns exactly the entries whose own probe outcome was true.  The
    result is the candidate set filtered by position: [(mac, ip)] is in
    it exactly when it is the [i]-th candidate, for some [i], and the
    probe of task [i] succeeded.  An outcome is never attributed through
    the address: two candidates with the same address keep their own
    outcomes. *)
Theorem filterReachable_exact (env : Env) (d : dict) :
  wf d -> probes_complete env d ->
  exists d',
    result_of (filterReachable env d) = inr d'
    /\ d' = keep (outcomes env d) d
    /\ forall mac ip,
         In (mac, ip) d' <->
         exists i, nth_error d i = Some (mac, ip) /\ outcome env i ip = true.
Proof.
  intros W C. exists (keep (outcomes env d) d).
  rewrite (filterReachable_complete W C).
  split; [reflexivity|]. split; [reflexivity|].
  intros mac ip. rewrite keep_In. unfold outcomes.
  split; intros (i & Hi & Ho); exists i; split; auto.
  - rewrite outcomes_from_nth in Ho. unfold values in Ho.
    rewrite nth_error_map, Hi in Ho. simpl in Ho. congruence.
  - rewrite outcomes_from_nth. unfold values.
    rewrite nth_error_map, Hi. simpl. congruence.
Qed.

Lemma filterReachable_exact_witness :
  wf same_ip /\ probes_complete (env_of (Raised OSError) only_first) same_ip
  /\ exists d',
       result_of (filterReachable (env_of (Raised OSError) only_first) same_ip)
       = inr d'
       /\ d' = [(mac_a, ip_10)].
Proof.
  assert (W : wf same_ip).
  { unfold wf. simpl. constructor.
    - intros [H|[]]. discriminate H.
    - constructor; [intros [] | constructor]. }
  assert (C : probes_complete (env_of (Raised OSError) only_first) same_ip).
  { intros [|[|[|i]]] ip H; simpl in H; try discriminate;
      [exists 0%Z, [] | exists 1%Z, []]; reflexivity. }
  split; [exact W|]. split; [exact C|].
  destruct (filterReachable_exact W C) as (d' & R & K & _).
  exists d'. split; [exact R|]. rewrite K. reflexivity.
Defined.

(** C7.  For every candidate set of size N, every [ping] completing, the
    coordinator launches the probe exactly N times, once for the address
    of each candidate, and each launch is a single attempt
    ([ping -c 1 -W 1]); a whole discovery whose candidate set it is
    launches no other probe. *)
Theorem one_probe_per_candidate (env : Env) (d : dict) :
  probes_complete env d ->
  discovery_events (trace_of (filterReachable env d))
  = PoolStart MULTIPROC_PCOUNT :: map (fun ip => Run (ping_argv ip)) (values d)
  /\ Permutation (probes (trace_of (filterReachable env d))) (values d)
  /\ length (probes (trace_of (filterReachable env d))) = length d
  /\ (forall rc text,
        ip_neigh env = Completed rc text -> parse text = ret d ->
        probes (trace_of (get_all_reachable_lan_devs env)) = values d).
Proof.
  intros C.
  assert (T : trace_of (filterReachable env d)
              = PoolStart MULTIPROC_PCOUNT
                :: map (fun ip => Run (ping_argv ip)) (values d)).
  { unfold filterReachable, pool_map.
    rewrite (@pool_map_from_complete env 0 (values d)) by exact C.
    unfold tell, bind.
    pose proof (drop_unreachable_silent
                  (seq 0 (length (outcomes_from env 0 (values d))))
                  (outcomes_from env 0 (values d)) (keys d) d) as S.
    destruct (drop_unreachable _ _ _ _) as [r t]. simpl in S. subst t.
    simpl. rewrite app_nil_r. reflexivity. }
  assert (P : probes (trace_of (filterReachable env d)) = values d).
  { rewrite T.
    change (probes (PoolStart MULTIPROC_PCOUNT
                    :: map (fun ip => Run (ping_argv ip)) (values d)))
      with (probes (map (fun ip => Run (ping_argv ip)) (values d))).
    apply probes_runs. }
  split; [|split; [|split]].
  - rewrite T. clear. unfold discovery_events. simpl. f_equal.
    induction (values d) as [|ip ips IH]; simpl; [|rewrite IH]; reflexivity.
  - rewrite P. apply Permutation_refl.
  - rewrite P. apply length_map.
  - intros rc text E R. rewrite parse_pure in R. injection R as R.
    rewrite (get_all_completed env E), R.
    destruct (procresultlines text) as [|l ls] eqn:L.
    + simpl in R. subst d. reflexivity.
    + unfold trace_of at 1. simpl snd.
      change (probes (Run ip_argv :: trace_of (filterReachable env d)))
        with (probes (trace_of (filterReachable env d))).
      exact P.
Qed.

Lemma one_probe_per_candidate_witness :
  probes_complete (env_of (Raised OSError) only_first) same_ip
  /\ probes (trace_of (filterReachable (env_of (Raised OSError) only_first) same_ip))
     = [ip_10; ip_10]
  /\ length (probes (trace_of (filterReachable (env_of (Raised OSError) only_first) same_ip)))
     = 2.
Proof.
  assert (C : probes_complete (env_of (Raised OSError) only_first) same_ip).
  { intros [|[|[|i]]] ip H; simpl in H; try discriminate;
      [exists 0%Z, [] | exists 1%Z, []]; reflexivity. }
  split; [exact C|].
  destruct (one_probe_per_candidate C) as (_ & _ & L & _).
  split; [reflexivity | exact L].
Defined.

(** C6, as the code has it.  When the candidate set is empty the
    discovery returns the empty device set and launches no probe, both
    when the neighbour-table text has no lines and when it has lines none
    of which yields a candidate.  Only in the first case does it return
    at once, right after the launch of [ip] and before the pool is made:
    the early return tests the lines, not the candidates.  In the second
    case the pool of five workers is started and given nothing to do. *)
Theorem empty_candidates_no_probe (env : Env) (rc : Z) (text : str) :
  ip_neigh env = Completed rc text ->
  result_of (parse text) = inr [] ->
  result_of (filterReachable env []) = inr []
  /\ probes (trace_of (filterReachable env [])) = []
  /\ result_of (get_all_reachable_lan_devs env) = inr []
  /\ probes (trace_of (get_all_reachable_lan_devs env)) = []
  /\ trace_of (get_all_reachable_lan_devs env)
     = Run ip_argv
       :: match procresultlines text with
          | [] => []
          | _ :: _ => [PoolStart MULTIPROC_PCOUNT]
          end.
Proof.
  intros E P. rewrite parse_pure in P. simpl in P. injection P as P.
  split; [reflexivity|]. split; [reflexivity|].
  rewrite (get_all_completed env E), P.
  destruct (procresultlines text); repeat split; reflexivity.
Qed.

Lemma empty_candidates_no_probe_witness :
  ip_neigh env_no_candidate = Completed 0 (text_of [line_failed])
  /\ result_of (parse (text_of [line_failed])) = inr []
  /\ result_of (get_all_reachable_lan_devs env_no_candidate) = inr []
  /\ probes (trace_of (get_all_reachable_lan_devs env_no_candidate)) = []
  /\ trace_of (get_all_reachable_lan_devs env_no_candidate)
     = [Run ip_argv; PoolStart MULTIPROC_PCOUNT].
Proof.
  assert (E : ip_neigh env_no_candidate = Completed 0 (text_of [line_failed]))
    by reflexivity.
  assert (P : result_of (parse (text_of [line_failed])) = inr [])
    by reflexivity.
  split; [exact E|]. split; [exact P|].
  destruct (empty_candidates_no_probe env_no_candidate E P)
    as (_ & _ & R & N & T).
  split; [exact R|]. split; [exact N|]. exact T.
Defined.

(** C6, as stated, fails: with lines none of which yields a candidate the
    candidate set is empty, yet the function does not return at once; it
    starts the pool before it returns the empty set. *)
Lemma pool_started_without_candidates :
  ip_neigh env_no_candidate = Completed 0 (text_of [line_failed])
  /\ result_of (parse (text_of [line_failed])) = inr []
  /\ result_of (get_all_reachable_lan_devs env_no_candidate) = inr []
  /\ trace_of (get_all_reachable_lan_devs env_no_candidate)
     = [Run ip_argv; PoolStart MULTIPROC_PCOUNT]
  /\ trace_of (get_all_reachable_lan_devs env_no_candidate) <> [Run ip_argv]
  /\ trace_of (filterReachable env_no_candidate []) = [PoolStart MULTIPROC_PCOUNT].
Proof. repeat split; try reflexivity. discriminate. Qed.

(** ** The parse step *)

(** C2, as the code has it.  On every line where the pattern matches, the
    key stored in the candidate set is the matched text exactly as the
    line writes it, separators and letter case included; it is a
    substring of the line of the shape of the pattern, and it maps to the
    first token of the line.  No normal form is imposed; the key
    coincides with its lower-case, colon-separated form only when the
    line already writes it so. *)
Theorem key_is_matched_text (line mac : str) (d : dict) :
  search line = Some mac ->
  exists ip d',
    parse_line line d = ret d'
    /\ nth_error (split line) 0 = Some ip
    /\ d' = Dict.set mac ip d
    /\ lookup mac d' = Some ip
    /\ (exists pre post, line = pre ++ mac ++ post)
    /\ mac_shape mac = true
    /\ (normalize_mac mac <> mac -> lookup (normalize_mac mac) d' = lookup (normalize_mac mac) d).
Proof.
  intros H. destruct (record_of_matched _ H) as [ip R].
  exists ip, (Dict.set mac ip d).
  rewrite parse_line_pure. unfold insert_record. rewrite R.
  apply record_of_Some in R. destruct R as [_ R].
  apply search_Some in H. destruct H as [S X].
  repeat split; auto using lookup_set_same.
  intros N. apply lookup_set_other. exact N.
Qed.

Lemma key_is_matched_text_witness :
  search line_upper = Some mac_upper
  /\ parse_line line_upper [] = ret [(mac_upper, ip_10)]
  /\ lookup mac_upper [(mac_upper, ip_10)] = Some ip_10.
Proof.
  assert (H : search line_upper = Some mac_upper) by reflexivity.
  split; [exact H|].
  destruct (@key_is_matched_text line_upper mac_upper [] H) as (ip & d' & P & T & D & L & _).
  assert (I : ip = ip_10)
    by (vm_compute in T; injection T as <-; reflexivity).
  subst ip d'. split; [exact P | exact L].
Defined.

(** C2, as stated, fails: a line that writes the address with hyphens and
    capitals is matched, and the key stored for it is that text, not its
    lower-case colon-separated form, under which nothing is stored. *)
Lemma key_not_normalized :
  search line_upper = Some mac_upper
  /\ normalize_mac mac_upper = mac_a
  /\ result_of (parse (text_of [line_upper])) = inr [(mac_upper, ip_10)]
  /\ keys [(mac_upper, ip_10)] <> [normalize_mac mac_upper]
  /\ lookup (normalize_mac mac_upper) [(mac_upper, ip_10)] = None.
Proof.
  repeat split; try reflexivity. vm_compute. discriminate.
Qed.

(** C3.  When a key is extracted from several lines, the candidate set
    maps it to the first token of the last of those lines, and the keys
    of the candidate set are pairwise distinct. *)
Theorem last_line_wins (text : str) (before after : list str) (line mac ip : str) :
  procresultlines text = before ++ line :: after ->
  record_of line = Some (mac, ip) ->
  (forall l, In l after -> search l <> Some mac) ->
  exists d,
    parse text = ret d
    /\ wf d
    /\ lookup mac d = Some ip
    /\ forall ip', In (mac, ip') d -> ip' = ip.
Proof.
  intros L R A. exists (fold_left insert_record (procresultlines text) []).
  assert (W : wf (fold_left insert_record (procresultlines text) []))
    by (apply fold_insert_wf, wf_nil).
  assert (K : lookup mac (fold_left insert_record (procresultlines text) []) = Some ip).
  { rewrite L, fold_left_app. simpl.
    rewrite (fold_insert_other _ _ A).
    unfold insert_record. rewrite R. apply lookup_set_same. }
  split; [apply parse_pure|]. split; [exact W|]. split; [exact K|].
  intros ip' H. apply (lookup_In _ _ W) in H. congruence.
Qed.

Lemma last_line_wins_witness :
  procresultlines (text_of [line_a; line_b; line_a_moved])
  = [line_a; line_b] ++ line_a_moved :: []
  /\ record_of line_a_moved = Some (mac_a, ip_20)
  /\ (forall l, In l [] -> search l <> Some mac_a)
  /\ exists d,
      parse (text_of [line_a; line_b; line_a_moved]) = ret d
      /\ lookup mac_a d = Some ip_20.
Proof.
  assert (L : procresultlines (text_of [line_a; line_b; line_a_moved])
              = [line_a; line_b] ++ line_a_moved :: []) by reflexivity.
  assert (R : record_of line_a_moved = Some (mac_a, ip_20)) by reflexivity.
  assert (A : forall l : str, In l [] -> search l <> Some mac_a)
    by (intros l []).
  split; [exact L|]. split; [exact R|]. split; [exact A|].
  destruct (@last_line_wins _ _ _ _ _ _ L R A) as (d & P & _ & K & _).
  exists d. split; [exact P | exact K].
Defined.

(** C4.  A line of the text that is empty, or that contains no substring
    of six groups of two hexadecimal digits separated by [:] or [-], is
    skipped without a trace: the loop body leaves the candidate set as it
    was, raises nothing and does nothing, and the candidate set of the
    text is the one built from the other lines alone. *)
Theorem unmatched_line_skipped (text line : str) (before after : list str) :
  split_on newline text = before ++ line :: after ->
  line = [] \/ ~ contains_mac line ->
  (forall d, parse_line line d = ret d)
  /\ parse text = parse_lines (before ++ after) [].
Proof.
  intros L H.
  assert (N : search line = None).
  { apply search_None. destruct H as [->|H]; [apply no_mac_in_empty | exact H]. }
  assert (R : record_of line = None) by (apply record_of_None, N).
  split.
  - intros d. rewrite parse_line_pure. unfold insert_record. rewrite R.
    reflexivity.
  - rewrite parse_pure, parse_lines_pure. f_equal. unfold procresultlines.
    rewrite fold_insert_filter.
    + rewrite L, !fold_left_app. simpl. unfold insert_record at 2.
      rewrite R. reflexivity.
    + intros l _ E. destruct l; [reflexivity | discriminate].
Qed.

Lemma unmatched_line_skipped_witness :
  split_on newline (text_of [line_a; line_failed])
  = [line_a] ++ line_failed :: [[]]
  /\ (line_failed = [] \/ ~ contains_mac line_failed)
  /\ parse_line line_failed [(mac_a, ip_10)] = ret [(mac_a, ip_10)]
  /\ parse (text_of [line_a; line_failed]) = parse_lines ([line_a] ++ [[]]) [].
Proof.
  assert (L : split_on newline (text_of [line_a; line_failed])
              = [line_a] ++ line_failed :: [[]]) by reflexivity.
  assert (H : line_failed = [] \/ ~ contains_mac line_failed)
    by (right; apply search_None; reflexivity).
  split; [exact L|]. split; [exact H|].
  destruct (@unmatched_line_skipped _ _ _ _ L H) as [S P].
  split; [apply S | exact P].
Defined.

(** C9.  A line on which the pattern matches holds a character that is
    not white space, so [line.split()] is not empty and [line.split()[0]]
    is in bounds; the parse step raises nothing on any text and always
    returns a candidate set. *)
Theorem first_token_in_bounds :
  (forall line mac,
     search line = Some mac ->
     Exists (fun c => isspace c = false) line
     /\ split line <> []
     /\ exists ip, index (split line) 0 = ret ip /\ token ip)
  /\ (forall line d, exists d', parse_line line d = ret d')
  /\ (forall text, exists d, parse text = ret d).
Proof.
  split; [|split].
  - intros line mac H.
    pose proof (matched_line_not_blank _ H) as B.
    pose proof (split_nonempty B) as N.
    split; [exact B|]. split; [exact N|].
    pose proof (split_tokens line) as T. unfold index.
    destruct (split line) as [|ip ts]; [contradiction|].
    exists ip. split; [reflexivity|]. inversion T. assumption.
  - intros line d. rewrite parse_line_pure. eauto.
  - intros text. rewrite parse_pure. eauto.
Qed.

Lemma first_token_in_bounds_witness :
  search line_a = Some mac_a
  /\ split line_a <> []
  /\ exists d, parse (text_of [line_a; line_failed]) = ret d.
Proof.
  assert (H : search line_a = Some mac_a) by reflexivity.
  destruct first_token_in_bounds as (F & _ & P).
  destruct (F _ _ H) as (_ & N & _).
  split; [exact H|]. split; [exact N|]. apply P.
Defined.

(** ** The probe *)

(** C5, as the code has it.  The probe launches [ping] once, for one
    echo request with a wait of one second.  It returns true exactly when
    that process completes with exit status 0, and false exactly when it
    completes with any other exit status, which is how [ping] reports a
    timeout, a negative answer or an error of its own.  When the process
    cannot be launched, the exception of the launch is raised by the
    probe; it is not turned into false. *)
Theorem is_ip_reachable_by_exit_status (o : str -> run_outcome) (ip : str) :
  (result_of (is_ip_reachable o ip) = inr true
   <-> exists out, o ip = Completed 0 out)
  /\ (result_of (is_ip_reachable o ip) = inr false
      <-> exists rc out, o ip = Completed rc out /\ rc <> 0%Z)
  /\ (forall e, result_of (is_ip_reachable o ip) = inl e <-> o ip = Raised e)
  /\ trace_of (is_ip_reachable o ip) = [Run (ping_argv ip)].
Proof.
  rewrite is_ip_reachable_run. unfold result_of, trace_of. simpl.
  destruct (o ip) as [rc out|e0].
  - destruct (Z.eqb_spec rc 0) as [->|N]; repeat split;
      try discriminate; try congruence; eauto.
    + intros (rc' & out' & E & N). congruence.
    + intros (out' & E). congruence.
  - repeat split; try discriminate; try congruence.
    + intros (out & E). discriminate.
    + intros (rc & out & E & _). discriminate.
Qed.

(** C5, as stated, fails: when [ping] cannot be launched the probe does
    not return false, it raises. *)
Lemma launch_failure_raises :
  result_of (is_ip_reachable (no_launch 0) ip_10) = inl OSError
  /\ result_of (is_ip_reachable (no_launch 0) ip_10) <> inr false
  /\ result_of (filterReachable (env_of (Raised OSError) no_launch) [(mac_a, ip_10)])
     = inl OSError.
Proof. repeat split; try reflexivity. discriminate. Qed.

(** ** The command line *)

(** C8.  When the first argument is one of [help], [-help], [--help],
    [/help], the program prints the five lines of the usage text and
    exits with status 0, and launches nothing.  Otherwise, when [ip] or
    [ping] is missing, it prints the eight lines of the guidance and
    exits with status 1, and launches nothing.  Otherwise the discovery
    runs, starting with the launch of [ip -4 neigh show], and when it
    returns a device set the program prints it (the notice for the empty
    set, the table otherwise) and exits with status 0. *)
Theorem main_exit_status (env : Env) :
  (asks_help (sys_argv env) = true ->
     run_program env = 0%Z
     /\ trace_of (main env) = map Print usage_lines
     /\ discovery_events (trace_of (main env)) = [])
  /\ (asks_help (sys_argv env) = false -> missing_dependency env = true ->
     run_program env = 1%Z
     /\ trace_of (main env) = map Print guidance_lines
     /\ discovery_events (trace_of (main env)) = [])
  /\ (asks_help (sys_argv env) = false -> missing_dependency env = false ->
     forall d, result_of (get_all_reachable_lan_devs env) = inr d ->
     run_program env = 0%Z
     /\ trace_of (main env) = trace_of (get_all_reachable_lan_devs env) ++ rendering d
     /\ (d = [] ->
          trace_of (main env)
          = trace_of (get_all_reachable_lan_devs env)
            ++ [Print (lit "No active devices on local network.")])
     /\ exists t, trace_of (get_all_reachable_lan_devs env) = Run ip_argv :: t).
Proof.
  unfold run_program. rewrite (main_cases env).
  split; [|split].
  - intros ->. repeat split.
  - intros -> ->. repeat split.
  - intros -> -> d R.
    destruct (get_all_returns_inv env R) as (rc & text & E & _).
    assert (T : exists t, trace_of (get_all_reachable_lan_devs env) = Run ip_argv :: t).
    { rewrite (get_all_completed env E).
      destruct (procresultlines text); simpl; eauto. }
    destruct (get_all_reachable_lan_devs env) as [[e|d0] t]; simpl in R;
      [discriminate|]. injection R as ->.
    split; [destruct d; reflexivity|]. split; [reflexivity|].
    split; [intros ->; reflexivity | exact T].
Qed.

Lemma main_exit_status_witness :
  (asks_help (sys_argv env_help) = true
   /\ run_program env_help = 0%Z
   /\ trace_of (main env_help) = map Print usage_lines)
  /\ (asks_help (sys_argv env_no_ping) = false
      /\ missing_dependency env_no_ping = true
      /\ run_program env_no_ping = 1%Z
      /\ trace_of (main env_no_ping) = map Print guidance_lines)
  /\ (asks_help (sys_argv env_C) = false
      /\ missing_dependency env_C = false
      /\ result_of (get_all_reachable_lan_devs env_C) = inr [(mac_a, ip_10)]
      /\ run_program env_C = 0%Z
      /\ trace_of (main env_C)
         = trace_of (get_all_reachable_lan_devs env_C)
           ++ [Print (repeat plus_sign NPLUS);
               Print (lit "|      Device MAC     |    IPv4 Address   |");
               Print (repeat plus_sign NPLUS);
               Print (lit "|  aa:bb:cc:dd:ee:ff  |  192.168.1.10     |");
               Print (repeat plus_sign NPLUS)])
  /\ (asks_help (sys_argv env_empty) = false
      /\ missing_dependency env_empty = false
      /\ result_of (get_all_reachable_lan_devs env_empty) = inr []
      /\ run_program env_empty = 0%Z
      /\ trace_of (main env_empty)
         = [Run ip_argv; Print (lit "No active devices on local network.")]).
Proof.
  split; [|split; [|split]].
  - assert (H : asks_help (sys_argv env_help) = true) by reflexivity.
    split; [exact H|].
    destruct (main_exit_status env_help) as (B & _ & _).
    destruct (B H) as (S & T & _). split; [exact S | exact T].
  - assert (H : asks_help (sys_argv env_no_ping) = false) by reflexivity.
    assert (D : missing_dependency env_no_ping = true) by reflexivity.
    split; [exact H|]. split; [exact D|].
    destruct (main_exit_status env_no_ping) as (_ & B & _).
    destruct (B H D) as (S & T & _). split; [exact S | exact T].
  - assert (H : asks_help (sys_argv env_C) = false) by reflexivity.
    assert (D : missing_dependency env_C = false) by reflexivity.
    assert (R : result_of (get_all_reachable_lan_devs env_C) = inr [(mac_a, ip_10)])
      by reflexivity.
    split; [exact H|]. split; [exact D|]. split; [exact R|].
    destruct (main_exit_status env_C) as (_ & _ & B).
    destruct (B H D _ R) as (S & T & _). split; [exact S | exact T].
  - assert (H : asks_help (sys_argv env_empty) = false) by reflexivity.
    assert (D : missing_dependency env_empty = false) by reflexivity.
    assert (R : result_of (get_all_reachable_lan_devs env_empty) = inr [])
      by reflexivity.
    split; [exact H|]. split; [exact D|]. split; [exact R|].
    destruct (main_exit_status env_empty) as (_ & _ & B).
    destruct (B H D _ R) as (S & _ & T & _). split; [exact S | exact (T eq_refl)].
Defined.

(** ** The device set *)

(** C10.  In every mapping the discovery returns, each key has the shape
    of the pattern (six groups of two hexadecimal digits separated by [:]
    or [-]) and is the text matched on a line of the neighbour table, and
    each value is the first token of that line: not empty and free of
    white space.  The keys are pairwise distinct.  The filtering stage
    keeps this because it only removes entries: every entry returned is
    an entry of the candidate set, with the same key and the same
    value. *)
Theorem returned_entries_well_formed (env : Env) (d : dict) :
  result_of (get_all_reachable_lan_devs env) = inr d ->
  wf d
  /\ (forall mac ip, In (mac, ip) d -> mac_shape mac = true /\ token ip)
  /\ (exists rc text cands,
        ip_neigh env = Completed rc text
        /\ parse text = ret cands
        /\ incl d cands
        /\ forall mac ip, In (mac, ip) cands ->
             exists line pre post,
               In line (procresultlines text)
               /\ record_of line = Some (mac, ip)
               /\ line = pre ++ mac ++ post)
  /\ (forall cands d', result_of (filterReachable env cands) = inr d' ->
        incl d' cands).
Proof.
  intros R. destruct (get_all_returns_inv env R) as (rc & text & E & I & W).
  split; [exact W|]. split; [|split].
  - intros mac ip H. apply I in H. apply fold_insert_In in H.
    destruct H as [[]|(line & _ & Rec)].
    eapply record_of_shape. exact Rec.
  - exists rc, text, (fold_left insert_record (procresultlines text) []).
    split; [exact E|]. split; [apply parse_pure|]. split; [exact I|].
    intros mac ip H. apply fold_insert_In in H.
    destruct H as [[]|(line & L & Rec)].
    pose proof Rec as S. apply record_of_Some in S. destruct S as [S _].
    apply search_Some in S. destruct S as (_ & pre & post & X).
    exists line, pre, post. auto.
  - intros cands d' H. apply (filterReachable_incl env cands H).
Qed.

Lemma returned_entries_well_formed_witness :
  result_of (get_all_reachable_lan_devs env_C) = inr [(mac_a, ip_10)]
  /\ wf [(mac_a, ip_10)]
  /\ mac_shape mac_a = true /\ token ip_10.
Proof.
  assert (R : result_of (get_all_reachable_lan_devs env_C) = inr [(mac_a, ip_10)])
    by reflexivity.
  destruct (@returned_entries_well_formed env_C _ R) as (W & S & _).
  split; [exact R|]. split; [exact W|].
  apply (S mac_a ip_10). left. reflexivity.
Defined.

(** ** The scenarios of the design document *)

(** Scenario A: the line without an address is skipped. *)
Example scenario_A :
  parse (text_of [line_a; line_failed]) = ret [(mac_a, ip_10)].
Proof. reflexivity. Qed.

(** Scenario B: an empty neighbour table. *)
Example scenario_B :
  main env_empty
  = (inl (SystemExit 0),
     [Run ip_argv; Print (lit "No active devices on local network.")])
  /\ run_program env_empty = 0%Z.
Proof. split; reflexivity. Qed.

(** Scenario C: of two candidates, the one that answers is kept. *)
Example scenario_C :
  result_of (filterReachable env_C [(mac_a, ip_10); (mac_b, ip_20)])
  = inr [(mac_a, ip_10)].
Proof. reflexivity. Qed.

(** Scenario D: a missing program stops the run before the discovery. *)
Example scenario_D :
  run_program env_no_ping = 1%Z
  /\ discovery_events (trace_of (main env_no_ping)) = [].
Proof. split; reflexivity. Qed.

(** A launch that fails ends the program with the status of an uncaught
    exception. *)
Example launch_failure_exit_status :
  run_program (env_of (Completed 0 (text_of [line_a])) no_launch) = 1%Z.
Proof. reflexivity. Qed.

(** The pairing test of the design document: with more candidates than
    workers and a probe that succeeds for the even last octets, the
    devices returned are the candidates with an even last octet. *)
Example pairing_beyond_pool_size :
  MULTIPROC_PCOUNT < length many
  /\ result_of (filterReachable (env_of (Raised OSError) only_even) many)
     = inr (filter (fun kv => even_octet (snd kv)) many).
Proof. split; [vm_compute; lia | vm_compute; reflexivity]. Qed.

(** * More of the program *)

(** ** Computations, once more *)

Section BindFacts.

Lemma trace_bind {A B} (m : M A) (k : A -> M B) :
  trace_of (bind m k)
  = trace_of m ++ match result_of m with
                  | inr a => trace_of (k a)
                  | inl _ => []
                  end.
Proof.
  destruct m as [[e|a] t]; simpl.
  - rewrite app_nil_r. reflexivity.
  - destruct (k a). reflexivity.
Qed.

Lemma result_bind {A B} (m : M A) (k : A -> M B) :
  result_of (bind m k)
  = match result_of m with
    | inr a => result_of (k a)
    | inl e => inl e
    end.
Proof.
  destruct m as [[e|a] t]; simpl; [reflexivity|].
  destruct (k a). reflexivity.
Qed.

End BindFacts.

(** ** The pool, whatever the launches do *)

Section PoolCases.

Variable env : Env.

(** Either every launch completes, or the call raises what a launch
    raised. *)
Lemma pool_map_from_cases (i : nat) (ips : list str) :
  (forall j ip, nth_error ips j = Some ip ->
     exists rc out, ping env (i + j) ip = Completed rc out)
  \/ (exists j ip e,
        nth_error ips j = Some ip
        /\ ping env (i + j) ip = Raised e
        /\ result_of (pool_map_from i (fun i => is_ip_reachable (ping env i)) ips)
           = inl e).
Proof.
  revert i; induction ips as [|ip ips IH]; intros i.
  - left. intros [|j] ip H; discriminate H.
  - simpl pool_map_from. rewrite is_ip_reachable_run.
    destruct (ping env i ip) as [rc out|e] eqn:E.
    + destruct (IH (S i)) as [C|(j & ip' & e & Hj & Hp & Hr)].
      * left. intros [|j] ip' H; simpl in H.
        -- injection H as <-. rewrite Nat.add_0_r. eauto.
        -- rewrite <- Nat.add_succ_comm. apply C. exact H.
      * right. exists (S j), ip', e. split; [exact Hj|].
        split; [rewrite <- Nat.add_succ_comm; exact Hp|].
        rewrite result_bind. simpl. rewrite result_bind, Hr. reflexivity.
    + right. exists 0, ip, e. rewrite Nat.add_0_r. auto.
Qed.

(** The pool launches [ping] for addresses it was given, in their order,
    and does nothing else. *)
Lemma pool_map_from_trace (i : nat) (ips : list str) :
  exists n,
    trace_of (pool_map_from i (fun i => is_ip_reachable (ping env i)) ips)
    = map (fun ip => Run (ping_argv ip)) (firstn n ips).
Proof.
  revert i; induction ips as [|ip ips IH]; intros i.
  - exists 0. reflexivity.
  - simpl pool_map_from. rewrite trace_bind, is_ip_reachable_run.
    destruct (ping env i ip) as [rc out|e]; simpl.
    + destruct (IH (S i)) as [n Hn]. exists (S n).
      rewrite trace_bind, Hn. simpl.
      destruct (result_of _); simpl; rewrite app_nil_r; reflexivity.
    + exists 1. reflexivity.
Qed.

Lemma filterReachable_trace (d : dict) :
  exists n,
    trace_of (filterReachable env d)
    = PoolStart MULTIPROC_PCOUNT
      :: map (fun ip => Run (ping_argv ip)) (firstn n (values d)).
Proof.
  destruct (pool_map_from_trace 0 (values d)) as [n Hn]. exists n.
  unfold filterReachable, pool_map. rewrite trace_bind. simpl.
  rewrite trace_bind, Hn.
  destruct (result_of _); [rewrite app_nil_r; reflexivity|].
  rewrite drop_unreachable_silent, app_nil_r. reflexivity.
Qed.

(** The stage, whatever the launches do. *)
Lemma filterReachable_cases (d : dict) :
  wf d ->
  (probes_complete env d
   /\ result_of (filterReachable env d) = inr (keep (outcomes env d) d))
  \/ (exists i ip e,
        nth_error (values d) i = Some ip
        /\ ping env i ip = Raised e
        /\ result_of (filterReachable env d) = inl e).
Proof.
  intros W. destruct (pool_map_from_cases 0 (values d)) as [C|(j & ip & e & Hj & Hp & Hr)].
  - left. split; [exact C|]. rewrite (@filterReachable_complete env d W C).
    reflexivity.
  - right. exists j, ip, e. split; [exact Hj|]. split; [exact Hp|].
    unfold filterReachable, pool_map. rewrite result_bind. simpl.
    rewrite result_bind, Hr. reflexivity.
Qed.

End PoolCases.

(** The stage looks at the environment through [ping] alone. *)
Lemma filterReachable_ext (env env' : Env) (d : dict) :
  (forall i ip, ping env i ip = ping env' i ip) ->
  filterReachable env d = filterReachable env' d.
Proof.
  intros H. unfold filterReachable, pool_map.
  assert (E : forall i ips,
             pool_map_from i (fun i => is_ip_reachable (ping env i)) ips
             = pool_map_from i (fun i => is_ip_reachable (ping env' i)) ips).
  { intros i ips. revert i. induction ips as [|ip ips IH]; intros i; simpl;
      [reflexivity|].
    rewrite !is_ip_reachable_run, H, IH. reflexivity. }
  rewrite E. reflexivity.
Qed.

(** ** Lines, tokens and matches *)

Section LineFacts.

Lemma split_on_no_sep (sep : char) (s : str) :
  Forall (fun l => ~ In sep l) (split_on sep s).
Proof.
  induction s as [|c s IH]; simpl.
  - constructor; [intros [] | constructor].
  - destruct (N.eqb_spec c sep) as [->|N].
    + constructor; [intros [] | exact IH].
    + destruct (split_on sep s) as [|piece rest].
      * constructor; [|constructor]. intros [H|[]]. congruence.
      * inversion IH; subst. constructor; [|assumption].
        intros [H|H]; [congruence | contradiction].
Qed.

Lemma procresultlines_nil (text : str) :
  procresultlines text = [] <-> only_newlines text = true.
Proof.
  unfold procresultlines, only_newlines.
  induction text as [|c text IH]; cbn [split_on forallb].
  - simpl. tauto.
  - rewrite (N.eqb_sym newline c).
    destruct (N.eqb c newline); [exact IH|].
    destruct (split_on newline text); simpl; split; discriminate.
Qed.

Lemma split_from_blanks (ws s : str) :
  forallb isspace ws = true -> split_from [] (ws ++ s) = split_from [] s.
Proof.
  induction ws as [|c ws IH]; simpl; [reflexivity|].
  rewrite andb_true_iff. intros [-> H]. apply IH, H.
Qed.

Lemma split_from_run (tok s acc : str) :
  Forall (fun c => isspace c = false) tok ->
  split_from acc (tok ++ s) = split_from (rev tok ++ acc) s.
Proof.
  revert acc; induction tok as [|c tok IH]; intros acc H; simpl;
    [reflexivity|].
  inversion H as [|? ? Hc Ht]; subst. rewrite Hc, IH by exact Ht.
  rewrite <- app_assoc. reflexivity.
Qed.

Lemma existsb_keys (k : str) (d : dict) :
  existsb (str_eqb k) (keys d)
  = match lookup k d with Some _ => true | None => false end.
Proof.
  induction d as [|[k' v'] d IH]; simpl; [reflexivity|].
  destruct (str_eqb k k'); simpl; [reflexivity | exact IH].
Qed.

Lemma fold_insert_keys (lines : list str) (d : dict) :
  keys (fold_left insert_record lines d)
  = keys d ++ first_seen (keys d) (matched_keys lines).
Proof.
  revert d; induction lines as [|line lines IH]; intros d; simpl.
  - rewrite app_nil_r. reflexivity.
  - rewrite IH. unfold insert_record.
    destruct (record_of line) as [[mac ip]|]; simpl; [|reflexivity].
    rewrite keys_set, existsb_keys.
    destruct (lookup mac d); [reflexivity|].
    rewrite <- app_assoc. reflexivity.
Qed.

End LineFacts.

(** X1.  When a line holds several substrings of the shape of the
    pattern, the key taken from it is the leftmost one: no substring of
    that shape starts before the match. *)
Theorem search_leftmost (line m : str) :
  search line = Some m ->
  exists pre post,
    line = pre ++ m ++ post
    /\ forall pre' m' post',
         line = pre' ++ m' ++ post' -> mac_shape m' = true ->
         length pre <= length pre'.
Proof.
  revert m; induction line as [|c line IH]; intros m; simpl.
  - destruct (mac_pattern []) eqn:E; [|discriminate].
    apply mac_pattern_Some in E. destruct E as [_ E]. discriminate E.
  - destruct (mac_pattern (c :: line)) as [r|] eqn:E.
    + intros H. injection H as <-. apply mac_pattern_Some in E.
      destruct E as [E _]. exists [], r. split; [exact E|].
      intros. simpl. lia.
    + intros H. destruct (IH _ H) as (pre & post & -> & L).
      exists (c :: pre), post. split; [reflexivity|].
      intros pre' m' post' D S. destruct pre' as [|c' pre'].
      * simpl in D. rewrite D, (mac_shape_matches _ post' S) in E.
        discriminate.
      * injection D as _ D. simpl. apply le_n_S. eapply L; eauto.
Qed.

Lemma search_leftmost_witness :
  search line_two_macs = Some mac_b
  /\ exists pre post,
       line_two_macs = pre ++ mac_b ++ post /\ length pre <= 20.
Proof.
  assert (H : search line_two_macs = Some mac_b) by reflexivity.
  split; [exact H|].
  destruct (@search_leftmost line_two_macs mac_b H) as (pre & post & D & L).
  exists pre, post. split; [exact D|].
  apply (L (lit "192.168.1.10 lladdr ") mac_b (lit " via aa:bb:cc:dd:ee:ff"));
    reflexivity.
Defined.

(** X2.  The lines the loop scans are never empty and hold no line feed,
    and there is none exactly when the text consists of line feeds only
    (the empty text included). *)
Theorem procresultlines_lines (text : str) :
  Forall (fun l => l <> [] /\ ~ In newline l) (procresultlines text)
  /\ (procresultlines text = [] <-> only_newlines text = true).
Proof.
  split; [|apply procresultlines_nil].
  apply Forall_forall. intros l H. apply procresultlines_In in H.
  destruct H as [H N]. split; [exact N|].
  pose proof (split_on_no_sep newline text) as F.
  rewrite Forall_forall in F. apply F, H.
Qed.

(** X3.  On a line made of blanks, then a field free of white space, then
    a white-space character and the rest, the first token is that field;
    so when the pattern matches on such a line the address stored is the
    field, whatever blanks come before it. *)
Theorem first_token_after_blanks (ws tok rest : str) (c : char) :
  forallb isspace ws = true -> token tok -> isspace c = true ->
  split (ws ++ tok ++ c :: rest) = tok :: split rest
  /\ split (ws ++ tok) = [tok]
  /\ forall mac, search (ws ++ tok ++ c :: rest) = Some mac ->
       parse_line (ws ++ tok ++ c :: rest) [] = ret [(mac, tok)].
Proof.
  intros W [N T] C. unfold split.
  assert (R : rev (rev tok ++ []) = tok)
    by (rewrite app_nil_r; apply rev_involutive).
  assert (A : rev tok ++ [] <> [])
    by (rewrite app_nil_r; intros E; apply N;
        rewrite <- (rev_involutive tok), E; reflexivity).
  assert (S1 : split_from [] (ws ++ tok ++ c :: rest) = tok :: split_from [] rest).
  { rewrite split_from_blanks, split_from_run by assumption. simpl.
    rewrite C, R. destruct (rev tok ++ []); [contradiction | reflexivity]. }
  split; [exact S1|]. split.
  - rewrite <- (app_nil_r tok) at 1.
    rewrite split_from_blanks, split_from_run by assumption. simpl.
    rewrite R. destruct (rev tok ++ []); [contradiction | reflexivity].
  - intros mac H. rewrite parse_line_pure. unfold insert_record, record_of.
    rewrite H. unfold split. rewrite S1. reflexivity.
Qed.

Lemma first_token_after_blanks_witness :
  forallb isspace (lit "   ") = true
  /\ token ip_10
  /\ isspace space = true
  /\ parse_line line_indented [] = ret [(mac_a, ip_10)].
Proof.
  assert (W : forallb isspace (lit "   ") = true) by reflexivity.
  assert (T : token ip_10).
  { split; [discriminate|]. apply Forall_forall. intros c H.
    apply (proj1 (forallb_forall (fun c => negb (isspace c)) ip_10) eq_refl) in H.
    apply negb_true_iff in H. exact H. }
  assert (C : isspace space = true) by reflexivity.
  split; [exact W|]. split; [exact T|]. split; [exact C|].
  destruct (@first_token_after_blanks (lit "   ") ip_10
              (lit "dev eth0 lladdr aa:bb:cc:dd:ee:ff REACHABLE") space W T C)
    as (_ & _ & P).
  apply (P mac_a). reflexivity.
Defined.

(** X4.  The keys of the candidate set stand in the order in which they
    first appear in the neighbour table: a key met again keeps its place
    (and takes the new address). *)
Theorem keys_in_order_of_first_match (text : str) :
  exists d,
    parse text = ret d
    /\ keys d = first_seen [] (matched_keys (procresultlines text)).
Proof.
  exists (fold_left insert_record (procresultlines text) []).
  split; [apply parse_pure|]. apply (fold_insert_keys _ []).
Qed.

(** ** The discovery and [main], whatever the launches do *)

Section RunFacts.

Variable env : Env.

Lemma get_all_trace :
  trace_of (get_all_reachable_lan_devs env) = [Run ip_argv]
  \/ exists rc text n,
       ip_neigh env = Completed rc text
       /\ procresultlines text <> []
       /\ trace_of (get_all_reachable_lan_devs env)
          = Run ip_argv :: PoolStart MULTIPROC_PCOUNT
            :: map (fun ip => Run (ping_argv ip))
                 (firstn n (values (fold_left insert_record (procresultlines text) []))).
Proof.
  destruct (ip_neigh env) as [rc text|e] eqn:E.
  - rewrite (get_all_completed env E).
    destruct (procresultlines text) as [|l ls] eqn:L; [left; reflexivity|].
    right.
    destruct (filterReachable_trace env (fold_left insert_record (l :: ls) []))
      as [n Hn].
    exists rc, text, n. rewrite L. split; [reflexivity|].
    split; [discriminate|].
    change (Run ip_argv
            :: trace_of (filterReachable env (fold_left insert_record (l :: ls) []))
            = Run ip_argv :: PoolStart MULTIPROC_PCOUNT
              :: map (fun ip => Run (ping_argv ip))
                   (firstn n (values (fold_left insert_record (l :: ls) [])))).
    rewrite Hn. reflexivity.
  - left. rewrite (get_all_raised env E). reflexivity.
Qed.

Lemma get_all_trace_allowed :
  Forall allowed_event (trace_of (get_all_reachable_lan_devs env)).
Proof.
  destruct get_all_trace as [->|(rc & text & n & _ & _ & ->)].
  - constructor; [left; reflexivity | constructor].
  - constructor; [left; reflexivity|].
    constructor; [reflexivity|].
    apply Forall_forall. intros ev H. apply in_map_iff in H.
    destruct H as (ip & <- & _). right. eauto.
Qed.

Lemma get_all_prints_nothing (s : str) :
  ~ In (Print s) (trace_of (get_all_reachable_lan_devs env)).
Proof.
  destruct get_all_trace as [->|(rc & text & n & _ & _ & ->)].
  - intros [H|[]]. discriminate H.
  - intros [H|[H|H]]; try discriminate H.
    apply in_map_iff in H. destruct H as (ip & H & _). discriminate H.
Qed.

Lemma rendering_prints (d : dict) (ev : event) :
  In ev (rendering d) -> exists s, ev = Print s.
Proof.
  destruct d as [|kv d]; simpl.
  - intros [<-|[]]. eauto.
  - intros [<-|[<-|[<-|[<-|[<-|H]]]]]; eauto.
    apply in_flat_map in H. destruct H as (x & _ & [<-|[<-|[]]]); eauto.
Qed.

(** What a discovery raises was raised by a launch. *)
Lemma get_all_raises (e : exn) :
  result_of (get_all_reachable_lan_devs env) = inl e ->
  ip_neigh env = Raised e \/ exists i ip, ping env i ip = Raised e.
Proof.
  destruct (ip_neigh env) as [rc text|e0] eqn:E.
  - rewrite (get_all_completed env E).
    destruct (procresultlines text) as [|l ls] eqn:L; [discriminate|].
    change (result_of (filterReachable env (fold_left insert_record (l :: ls) []))
            = inl e -> Completed rc text = Raised e
                       \/ exists i ip, ping env i ip = Raised e).
    intros H. right.
    destruct (@filterReachable_cases env (fold_left insert_record (l :: ls) []))
      as [[_ R]|(i & ip & e' & _ & P & R)].
    + apply fold_insert_wf, wf_nil.
    + rewrite R in H. discriminate.
    + rewrite R in H. injection H as ->. eauto.
  - rewrite (get_all_raised env E). intros H. injection H as ->. auto.
Qed.

End RunFacts.

(** X5.  When the launch of [ping] fails for some candidate, the
    filtering stage returns no device set at all: it ends with an
    exception that the launch for one of the candidates raised. *)
Theorem failed_launch_fails_stage (env : Env) (d : dict) :
  some_probe_raises env d ->
  exists i ip e,
    nth_error (values d) i = Some ip
    /\ ping env i ip = Raised e
    /\ result_of (filterReachable env d) = inl e.
Proof.
  intros (i & ip & e & Hi & Hp).
  destruct (pool_map_from_cases env 0 (values d)) as [C|(j & ip' & e' & Hj & Hq & Hr)].
  - destruct (C i ip Hi) as (rc & out & E). simpl in E. congruence.
  - exists j, ip', e'. split; [exact Hj|]. split; [exact Hq|].
    unfold filterReachable, pool_map. rewrite result_bind. simpl.
    rewrite result_bind, Hr. reflexivity.
Qed.

Lemma failed_launch_fails_stage_witness :
  some_probe_raises (env_of (Raised OSError) no_launch) same_ip
  /\ exists e, result_of (filterReachable (env_of (Raised OSError) no_launch) same_ip)
               = inl e.
Proof.
  assert (S : some_probe_raises (env_of (Raised OSError) no_launch) same_ip)
    by (exists 1, ip_10, OSError; split; reflexivity).
  split; [exact S|].
  destruct (failed_launch_fails_stage S) as (_ & _ & e & _ & _ & R).
  exists e. exact R.
Defined.

(** X6.  The program never fails on its own indexing or dictionary
    accesses: when [main] ends with an exception, it is [SystemExit] with
    status 0 or 1, or an exception raised by the launch of [ip] or of a
    [ping]. *)
Theorem main_raises_only_from_launches (env : Env) (e : exn) :
  result_of (main env) = inl e ->
  e = SystemExit 0
  \/ e = SystemExit 1
  \/ ip_neigh env = Raised e
  \/ exists i ip, ping env i ip = Raised e.
Proof.
  rewrite (main_cases env).
  destruct (asks_help (sys_argv env)).
  { intros H. injection H as <-. auto. }
  destruct (missing_dependency env).
  { intros H. injection H as <-. auto. }
  destruct (get_all_reachable_lan_devs env) as [[e0|d] t] eqn:G.
  - intros H. injection H as ->.
    assert (R : result_of (get_all_reachable_lan_devs env) = inl e)
      by (rewrite G; reflexivity).
    destruct (get_all_raises env R); auto.
  - destruct d; intros H; [injection H as <-; auto | discriminate H].
Qed.

Lemma main_raises_only_from_launches_witness :
  result_of (main env_ping_fails) = inl OSError
  /\ (OSError = SystemExit 0
      \/ OSError = SystemExit 1
      \/ ip_neigh env_ping_fails = Raised OSError
      \/ exists i ip, ping env_ping_fails i ip = Raised OSError).
Proof.
  assert (H : result_of (main env_ping_fails) = inl OSError) by reflexivity.
  split; [exact H|]. exact (@main_raises_only_from_launches env_ping_fails OSError H).
Defined.

(** X7.  Whatever the arguments and the environment, the program does
    nothing to the outside world but launch [ip -4 neigh show], launch
    [ping -c 1 -W 1] with one address, start a pool of five workers, and
    print. *)
Theorem main_events_allowed (env : Env) :
  Forall allowed_event (trace_of (main env)).
Proof.
  rewrite (main_cases env).
  destruct (asks_help (sys_argv env)).
  { apply Forall_forall. intros ev H. vm_compute in H.
    repeat (destruct H as [<-|H]; [exact I|]). destruct H. }
  destruct (missing_dependency env).
  { apply Forall_forall. intros ev H. vm_compute in H.
    repeat (destruct H as [<-|H]; [exact I|]). destruct H. }
  pose proof (get_all_trace_allowed env) as A.
  destruct (get_all_reachable_lan_devs env) as [[e|d] t]; [exact A|].
  unfold trace_of. simpl snd. apply Forall_app. split; [exact A|].
  apply Forall_forall. intros ev H. apply rendering_prints in H.
  destruct H as [s ->]. exact I.
Qed.

(** X8.  When the discovery returns devices whose addresses are at most
    17 characters long (any dotted quad is), every line of the table,
    rules, header and rows alike, is exactly [NPLUS] characters wide. *)
Theorem table_lines_width (env : Env) (d : dict) (s : str) :
  asks_help (sys_argv env) = false ->
  missing_dependency env = false ->
  result_of (get_all_reachable_lan_devs env) = inr d ->
  d <> [] ->
  (forall mac ip, In (mac, ip) d -> length ip <= 17) ->
  In (Print s) (trace_of (main env)) ->
  length s = NPLUS.
Proof.
  intros Hh Hm R Nd W.
  assert (K : forall mac ip, In (mac, ip) d -> length mac = 17).
  { intros mac ip H.
    destruct (get_all_returns_inv env R) as (rc & text & _ & I & _).
    apply I in H. apply fold_insert_In in H. destruct H as [[]|(l & _ & Rec)].
    apply record_of_shape in Rec. destruct Rec as [S _].
    unfold mac_shape in S. apply andb_true_iff in S. destruct S as [S _].
    apply Nat.eqb_eq in S. exact S. }
  rewrite (main_cases env), Hh, Hm.
  pose proof (get_all_prints_nothing env s) as P.
  destruct (get_all_reachable_lan_devs env) as [[e|d0] t];
    unfold result_of in R; cbn [fst] in R; [discriminate|]. injection R as ->.
  unfold trace_of in *. cbn [snd] in *. intros H.
  apply in_app_or in H. destruct H as [H|H]; [contradiction|].
  destruct d as [|kv d']; [contradiction|].
  remember (kv :: d') as d eqn:Ed. rewrite Ed in H at 1.
  cbn [rendering In] in H. rewrite <- Ed in H.
  assert (J : forall x y, Print x = Print y -> x = y)
    by (intros x y E; exact (f_equal (fun ev => match ev with
                                                | Print z => z
                                                | _ => x
                                                end) E)).
  destruct H as [H|[H|[H|H]]].
  - apply J in H. subst s. apply repeat_length.
  - apply J in H. subst s. reflexivity.
  - apply J in H. subst s. apply repeat_length.
  - apply in_flat_map in H. destruct H as ([mac ip] & Hin & [H|[H|[]]]).
    + apply J in H. subst s. cbn [fst snd].
      rewrite !length_app, repeat_length, (K mac ip Hin).
      specialize (W mac ip Hin).
      change (length (lit "|  ")) with 3.
      change (length (lit "  |  ")) with 5.
      change (length (lit "|")) with 1.
      unfold NPLUS. lia.
    + apply J in H. subst s. apply repeat_length.
Qed.

Lemma table_lines_width_witness :
  asks_help (sys_argv env_C) = false
  /\ missing_dependency env_C = false
  /\ result_of (get_all_reachable_lan_devs env_C) = inr [(mac_a, ip_10)]
  /\ In (Print (lit "|  aa:bb:cc:dd:ee:ff  |  192.168.1.10     |"))
        (trace_of (main env_C))
  /\ length (lit "|  aa:bb:cc:dd:ee:ff  |  192.168.1.10     |") = NPLUS.
Proof.
  assert (Hh : asks_help (sys_argv env_C) = false) by reflexivity.
  assert (Hm : missing_dependency env_C = false) by reflexivity.
  assert (R : result_of (get_all_reachable_lan_devs env_C) = inr [(mac_a, ip_10)])
    by reflexivity.
  assert (Nd : [(mac_a, ip_10)] <> []) by discriminate.
  assert (W : forall mac ip, In (mac, ip) [(mac_a, ip_10)] -> length ip <= 17).
  { intros mac ip [H|[]]. injection H as <- <-. vm_compute. lia. }
  assert (P : In (Print (lit "|  aa:bb:cc:dd:ee:ff  |  192.168.1.10     |"))
                 (trace_of (main env_C))).
  { vm_compute. do 7 right. left. reflexivity. }
  split; [exact Hh|]. split; [exact Hm|]. split; [exact R|]. split; [exact P|].
  exact (@table_lines_width env_C _ _ Hh Hm R Nd W P).
Defined.

(** X9.  The exit status of [ip] is not looked at: two runs in which
    [proc.stdout] is the same text, every [ping] for a candidate of that
    text completes, and the probes answer alike give the same result and
    do the same things, whatever the two exit statuses of [ip]. *)
Theorem ip_exit_status_ignored (env env' : Env) (rc rc' : Z) (text : str)
    (cands : dict) :
  ip_neigh env = Completed rc text ->
  ip_neigh env' = Completed rc' text ->
  parse text = ret cands ->
  probes_complete env cands ->
  (forall i ip, ping env i ip = ping env' i ip) ->
  get_all_reachable_lan_devs env = get_all_reachable_lan_devs env'
  /\ result_of (get_all_reachable_lan_devs env')
     = inr (keep (outcomes env cands) cands).
Proof.
  intros E E' Pa C P.
  assert (Q : get_all_reachable_lan_devs env = get_all_reachable_lan_devs env').
  { rewrite (get_all_completed env E), (get_all_completed env' E').
    destruct (procresultlines text); [reflexivity|].
    rewrite (filterReachable_ext env env' _ P). reflexivity. }
  split; [exact Q|]. rewrite <- Q.
  rewrite parse_pure in Pa. injection Pa as <-.
  apply (get_all_complete E C).
Qed.

Lemma ip_exit_status_ignored_witness :
  ip_neigh env_C = Completed 0 (text_of [line_a; line_failed; line_b])
  /\ ip_neigh env_C_status_2 = Completed 2 (text_of [line_a; line_failed; line_b])
  /\ parse (text_of [line_a; line_failed; line_b])
     = ret [(mac_a, ip_10); (mac_b, ip_20)]
  /\ probes_complete env_C [(mac_a, ip_10); (mac_b, ip_20)]
  /\ (forall i ip, ping env_C i ip = ping env_C_status_2 i ip)
  /\ get_all_reachable_lan_devs env_C = get_all_reachable_lan_devs env_C_status_2.
Proof.
  assert (E : ip_neigh env_C = Completed 0 (text_of [line_a; line_failed; line_b]))
    by reflexivity.
  assert (E' : ip_neigh env_C_status_2
               = Completed 2 (text_of [line_a; line_failed; line_b]))
    by reflexivity.
  assert (Pa : parse (text_of [line_a; line_failed; line_b])
               = ret [(mac_a, ip_10); (mac_b, ip_20)]) by reflexivity.
  assert (C : probes_complete env_C [(mac_a, ip_10); (mac_b, ip_20)]).
  { intros [|[|[|i]]] ip H; simpl in H; try discriminate;
      injection H as <-; [exists 0%Z, [] | exists 1%Z, []]; reflexivity. }
  assert (P : forall i ip, ping env_C i ip = ping env_C_status_2 i ip)
    by reflexivity.
  split; [exact E|]. split; [exact E'|]. split; [exact Pa|].
  split; [exact C|]. split; [exact P|].
  destruct (@ip_exit_status_ignored env_C env_C_status_2 _ _ _ _ E E' Pa C P)
    as [Q _].
  exact Q.
Defined.

(** X10.  When [ip] cannot be launched (and no help is asked and both
    programs are found), the exception of the launch ends [main] right
    after that launch: no pool, no probe, nothing printed; the exit
    status is 1 unless the exception is a [SystemExit]. *)
Theorem ip_launch_failure (env : Env) (e : exn) :
  asks_help (sys_argv env) = false ->
  missing_dependency env = false ->
  ip_neigh env = Raised e ->
  main env = (inl e, [Run ip_argv])
  /\ ((forall code, e <> SystemExit code) -> run_program env = 1%Z).
Proof.
  intros Hh Hm E.
  assert (M : main env = (inl e, [Run ip_argv])).
  { rewrite (main_cases env), Hh, Hm, (get_all_raised env E). reflexivity. }
  split; [exact M|]. intros N. unfold run_program. rewrite M. simpl.
  destruct e; try reflexivity. exfalso. exact (N code eq_refl).
Qed.

Lemma ip_launch_failure_witness :
  asks_help (sys_argv env_ip_fails) = false
  /\ missing_dependency env_ip_fails = false
  /\ ip_neigh env_ip_fails = Raised OSError
  /\ main env_ip_fails = (inl OSError, [Run ip_argv])
  /\ run_program env_ip_fails = 1%Z.
Proof.
  assert (Hh : asks_help (sys_argv env_ip_fails) = false) by reflexivity.
  assert (Hm : missing_dependency env_ip_fails = false) by reflexivity.
  assert (E : ip_neigh env_ip_fails = Raised OSError) by reflexivity.
  split; [exact Hh|]. split; [exact Hm|]. split; [exact E|].
  destruct (@ip_launch_failure env_ip_fails OSError Hh Hm E) as [M S].
  split; [exact M|]. apply S. intros code. discriminate.
Defined.

(** X11.  Parsing and filtering compose: when [ip] and every [ping]
    complete, the discovery returns the candidate set of [proc.stdout],
    filtered by the outcomes of the probes, in the order of the
    candidate set; a candidate is returned exactly when its own [ping]
    exited with status 0. *)
Theorem discovery_filters_candidates (env : Env) (rc : Z) (text : str) (cands : dict) :
  ip_neigh env = Completed rc text ->
  parse text = ret cands ->
  probes_complete env cands ->
  result_of (get_all_reachable_lan_devs env)
  = inr (keep (outcomes env cands) cands)
  /\ forall mac ip,
       In (mac, ip) (keep (outcomes env cands) cands) <->
       exists i, nth_error cands i = Some (mac, ip) /\ outcome env i ip = true.
Proof.
  intros E P C. rewrite parse_pure in P. injection P as <-.
  split; [apply (get_all_complete E C)|].
  intros mac ip. rewrite keep_In. unfold outcomes.
  split; intros (i & Hi & Ho); exists i; split; auto.
  - rewrite outcomes_from_nth in Ho. unfold values in Ho.
    rewrite nth_error_map, Hi in Ho. simpl in Ho. congruence.
  - rewrite outcomes_from_nth. unfold values.
    rewrite nth_error_map, Hi. simpl. congruence.
Qed.

Lemma discovery_filters_candidates_witness :
  ip_neigh env_C = Completed 0 (text_of [line_a; line_failed; line_b])
  /\ parse (text_of [line_a; line_failed; line_b])
     = ret [(mac_a, ip_10); (mac_b, ip_20)]
  /\ probes_complete env_C [(mac_a, ip_10); (mac_b, ip_20)]
  /\ result_of (get_all_reachable_lan_devs env_C) = inr [(mac_a, ip_10)].
Proof.
  assert (E : ip_neigh env_C = Completed 0 (text_of [line_a; line_failed; line_b]))
    by reflexivity.
  assert (P : parse (text_of [line_a; line_failed; line_b])
              = ret [(mac_a, ip_10); (mac_b, ip_20)]) by reflexivity.
  assert (C : probes_complete env_C [(mac_a, ip_10); (mac_b, ip_20)]).
  { intros [|[|[|i]]] ip H; simpl in H; try discriminate;
      injection H as <-; [exists 0%Z, [] | exists 1%Z, []]; reflexivity. }
  split; [exact E|]. split; [exact P|]. split; [exact C|].
  destruct (@discovery_filters_candidates env_C _ _ _ E P C) as [R _].
  exact R.
Defined.

(** X12.  The discovery probes no address but those of the candidate set:
    every address [ping] is launched for is the first token of a line of
    the neighbour table on which the pattern matched, and is the address
    the candidate set holds for the key of that line. *)
Theorem probes_are_candidates (env : Env) (rc : Z) (text ip : str) :
  ip_neigh env = Completed rc text ->
  In ip (probes (trace_of (get_all_reachable_lan_devs env))) ->
  exists cands mac line,
    parse text = ret cands
    /\ In (mac, ip) cands
    /\ In line (procresultlines text)
    /\ record_of line = Some (mac, ip).
Proof.
  intros E H.
  destruct (get_all_trace env) as [T|(rc' & text' & n & E' & _ & T)];
    rewrite T in H.
  - simpl in H. destruct H.
  - rewrite E in E'. injection E' as <- <-.
    change (In ip (probes (map (fun ip => Run (ping_argv ip))
              (firstn n (values (fold_left insert_record (procresultlines text) []))))))
      in H.
    rewrite probes_runs in H.
    assert (V : In ip (values (fold_left insert_record (procresultlines text) [])))
      by (rewrite <- (firstn_skipn n); apply in_or_app; left; exact H).
    clear H. rename V into H. apply in_map_iff in H.
    destruct H as ([mac ip'] & <- & Hin).
    exists (fold_left insert_record (procresultlines text) []), mac.
    pose proof Hin as Hl. apply fold_insert_In in Hl.
    destruct Hl as [[]|(line & L & Rec)].
    exists line. split; [apply parse_pure|]. auto.
Qed.

Lemma probes_are_candidates_witness :
  ip_neigh env_C = Completed 0 (text_of [line_a; line_failed; line_b])
  /\ In ip_20 (probes (trace_of (get_all_reachable_lan_devs env_C)))
  /\ exists cands mac,
       parse (text_of [line_a; line_failed; line_b]) = ret cands
       /\ In (mac, ip_20) cands.
Proof.
  assert (E : ip_neigh env_C = Completed 0 (text_of [line_a; line_failed; line_b]))
    by reflexivity.
  assert (H : In ip_20 (probes (trace_of (get_all_reachable_lan_devs env_C))))
    by (right; left; reflexivity).
  split; [exact E|]. split; [exact H|].
  destruct (@probes_are_candidates env_C _ _ _ E H) as (cands & mac & _ & P & I & _).
  exists cands, mac. auto.
Defined.

(** X13.  The pool is started exactly when [proc.stdout] has a line
    that is not empty: on a text of line feeds only the discovery
    returns the empty set right after the launch of [ip]; on any other
    text the pool of five workers is started next, even when no line
    yields a candidate. *)
Theorem pool_started_iff_lines (env : Env) (rc : Z) (text : str) :
  ip_neigh env = Completed rc text ->
  (only_newlines text = true ->
     get_all_reachable_lan_devs env = (inr [], [Run ip_argv]))
  /\ (only_newlines text = false ->
     exists t, trace_of (get_all_reachable_lan_devs env)
               = Run ip_argv :: PoolStart MULTIPROC_PCOUNT :: t).
Proof.
  intros E. rewrite (get_all_completed env E). split; intros H.
  - apply procresultlines_nil in H. rewrite H. reflexivity.
  - destruct (procresultlines text) as [|l ls] eqn:L.
    + apply procresultlines_nil in L. congruence.
    + destruct (filterReachable_trace env (fold_left insert_record (l :: ls) []))
        as [n Hn].
      exists (map (fun ip => Run (ping_argv ip))
                (firstn n (values (fold_left insert_record (l :: ls) [])))).
      change (Run ip_argv
              :: trace_of (filterReachable env (fold_left insert_record (l :: ls) []))
              = Run ip_argv :: PoolStart MULTIPROC_PCOUNT
                :: map (fun ip => Run (ping_argv ip))
                     (firstn n (values (fold_left insert_record (l :: ls) [])))).
      rewrite Hn. reflexivity.
Qed.

Lemma pool_started_iff_lines_witness :
  ip_neigh env_no_candidate = Completed 0 (text_of [line_failed])
  /\ only_newlines (text_of [line_failed]) = false
  /\ exists t, trace_of (get_all_reachable_lan_devs env_no_candidate)
               = Run ip_argv :: PoolStart MULTIPROC_PCOUNT :: t.
Proof.
  assert (E : ip_neigh env_no_candidate = Completed 0 (text_of [line_failed]))
    by reflexivity.
  assert (H : only_newlines (text_of [line_failed]) = false) by reflexivity.
  split; [exact E|]. split; [exact H|].
  destruct (@pool_started_iff_lines env_no_candidate _ _ E) as [_ P].
  exact (P H).
Defined.

(** An address wider than the column pushes its row past the rule: the
    padding is empty and the row is longer than [NPLUS]. *)
Example wide_address_row :
  exists s,
    In (Print s)
       (trace_of (main (env_of (Completed 0 (text_of [line_wide]))
                               (fun _ _ => Completed 0 []))))
    /\ NPLUS < length s.
Proof.
  exists (lit "|  aa:bb:cc:dd:ee:ff  |  fe80::1234:5678:9abc:def0|").
  split; [vm_compute; do 6 right; left; reflexivity | vm_compute; lia].
Qed.
